(** * rslaser example notebooks: a shallow embedding and its properties

    The repository is a set of Jupyter notebooks.  Each code cell is
    embedded as a function on the state of the notebook kernel:

    - calls into FEniCS, SRW and Matplotlib are calls of an abstract
      library interface (a type class); every call is recorded in a
      log of events, and a call may raise an exception;
    - Python exceptions are the type [exn]; a computation that may
      raise returns its exception next to the state it reached;
    - a Python generator is a state machine with a [next] function;
    - the [while True] loop and the [for ... in generator] loops take
      fuel, and [None] means that the fuel ran out;
    - objects that are mutated in place (SRW wavefronts) live in a
      store indexed by references;
    - Python floats are idealised: the clock [t] of the time-stepping
      loops is an exact rational, and the closed-form gain formulas are
      over the real numbers.  Rounding is not part of the model. *)

From stdpp Require Import base option list gmap strings pretty.
From Stdlib Require Import QArith Qcanon Reals Lra Lia.

(** ** Exceptions, results and the event log *)

Inductive exn : Type :=
| StopIteration
| ZeroDivisionError
| IndexError
| NameError (name : string)
| RuntimeError
| LibraryError (code : nat).

Inductive res (A : Type) : Type :=
| Ok (a : A)
| Raise (e : exn).
Arguments Ok {A} a.
Arguments Raise {A} e.

(** What [next(g)] gives: a yielded value or a raised exception
    ([StopIteration] when the generator is exhausted). *)
Inductive signal (A : Type) : Type :=
| Yielded (a : A)
| Raised (e : exn).
Arguments Yielded {A} a.
Arguments Raised {A} e.

(** Calls that leave the notebook: library solvers, plotting, files. *)
Inductive event : Type :=
| EvSolve                               (* fenics: solve(a == L, u, bc) *)
| EvPropagElecField (beamline : string) (* srwl.PropagElecField(wfr, bl) *)
| EvPlot                                (* fenics: plot(...) *)
| EvAssign (target : string)            (* target.assign(...) *)
| EvDeepcopy                            (* copy.deepcopy(...) *)
| EvFigure (width height : Qc)          (* plt.figure(figsize=...) *)
| EvSubplot (nrows ncols index : nat)   (* plt.subplot(...) *)
| EvPlt (function : string)             (* any other pyplot call *)
| EvSavefig (fname : string)            (* plt.savefig(fname) *)
| EvSavetxt (fname fmt : string)        (* np.savetxt(fname, X, fmt=fmt) *)
| EvPrint (line : string).              (* print(...) of a fixed text *)

Definition is_solver_call (e : event) : bool :=
  match e with
  | EvSolve | EvPropagElecField _ => true
  | _ => false
  end.

Definition is_plot (e : event) : bool :=
  match e with EvPlot => true | _ => false end.

(** The name of the file an event writes, if it writes one. *)
Definition file_written (e : event) : option string :=
  match e with
  | EvSavefig fname => Some fname
  | EvSavetxt fname _ => Some fname
  | _ => None
  end.

Definition files_written (log : list event) : list string :=
  omap file_written log.

Definition solver_calls (log : list event) : nat :=
  length (filter (fun e => is_solver_call e = true) log).

(** [for n in range(...)]: the body runs on each index in turn and the
    loop stops at the first exception. *)
Fixpoint for_in {S : Type} (body : nat -> S -> option exn * S)
    (indices : list nat) (s : S) : option exn * S :=
  match indices with
  | [] => (None, s)
  | n :: rest =>
      match body n s with
      | (None, s') => for_in body rest s'
      | (Some e, s') => (Some e, s')
      end
  end.

Definition range (n : nat) : list nat := seq 0 n.

(** An exception that leaves the body of a generator: Python turns a
    [StopIteration] raised inside the body into a [RuntimeError]. *)
Definition generator_raise (e : exn) : exn :=
  match e with StopIteration => RuntimeError | _ => e end.

(** Calling [next] until it raises: the values yielded, each with the
    state the generator was suspended in, and the exception that ended
    the iteration. *)
Fixpoint drain {G A K : Type} (next : G -> K -> signal A * G * K)
    (fuel : nat) (g : G) (k : K) : option (list (A * G) * exn * K) :=
  match fuel with
  | O => None
  | S fuel' =>
      match next g k with
      | (Yielded a, g', k') =>
          match drain next fuel' g' k' with
          | Some (ys, e, k'') => Some ((a, g') :: ys, e, k'')
          | None => None
          end
      | (Raised e, _, k') => Some ([], e, k')
      end
  end.

(** ** The FEniCS interface used by the two PDE notebooks *)

Class Fenics : Type := {
  Fn : Type;                     (* values of a dolfin Function *)
  Artist : Type;                 (* what plot returns *)
  Function_V : Fn;               (* Function(V): a fresh, zero function *)
  solve : list Fn -> res Fn;     (* solve(a == L, u, bc): the new value of
                                    u, from the coefficients of the forms *)
  plot : Fn -> res Artist;
  fdiv : Fn -> Qc -> Fn;         (* the UFL quotient f / constant *)
}.

(** A library all of whose calls succeed. *)
Definition succeeding {F A : Type} (zero : F) (solve_fn : list F -> F)
    (plot_fn : F -> A) (div_fn : F -> Qc -> F) : Fenics :=
  {| Fn := F; Artist := A; Function_V := zero;
     solve := fun coeffs => Ok (solve_fn coeffs);
     plot := fun f => Ok (plot_fn f);
     fdiv := div_fn |}.

(** ** xt02_heat_2D_square: diffusion of a Gaussian hill *)

Module Heat.
Section WithFenics.
Context {lib : Fenics}.

Definition T : Qc := Q2Qc 2.
Definition num_steps : nat := 50.
Definition dt : Qc := (T / Q2Qc (Z.of_nat num_steps # 1))%Qc.

(** The globals a cell can change: the previous solution [u_n], which
    the linear form [L] reads, and the log of library calls. *)
Record kernel : Type := Kernel {
  u_n : Fn;
  log : list event;
}.

Definition emit (e : event) (k : kernel) : kernel :=
  Kernel (u_n k) (log k ++ [e]).

(** [u_n.assign(u)] *)
Definition assign_u_n (u : Fn) (k : kernel) : kernel :=
  Kernel u (log k ++ [EvAssign "u_n"]).

(** *** The generator [evolve()] *)

Inductive evolve_gen : Type :=
| NotStarted
| AtYield (n nip : nat) (u : Fn) (t : Qc)  (* suspended at the yield of step n *)
| Finished.

(** The [for n in range(num_steps)] loop from step [n] on, with
    [remaining] steps left, up to the next yield. *)
Fixpoint evolve_loop (remaining n nip : nat) (u : Fn) (t : Qc)
    (k : kernel) : signal Artist * evolve_gen * kernel :=
  match remaining with
  | O => (Raised StopIteration, Finished, k)
  | S remaining' =>
      let t := (t + dt)%Qc in
      let k := emit EvSolve k in
      match solve [u_n k] with
      | Raise e => (Raised (generator_raise e), Finished, k)
      | Ok u =>
          if (n mod nip =? 0)%nat then
            let k := emit EvPlot k in
            match plot u with
            | Raise e => (Raised (generator_raise e), Finished, k)
            | Ok p => (Yielded p, AtYield n nip u t, k)
            end
          else evolve_loop remaining' (S n) nip u t (assign_u_n u k)
      end
  end.

(** [next(g)] for [g = evolve()]. *)
Definition evolve_next (g : evolve_gen) (k : kernel)
    : signal Artist * evolve_gen * kernel :=
  match g with
  | NotStarted => evolve_loop num_steps 0 10 Function_V (Q2Qc 0) k
  | AtYield n nip u t =>
      evolve_loop (num_steps - S n) (S n) nip u t (assign_u_n u k)
  | Finished => (Raised StopIteration, Finished, k)
  end.

(** The step at which a generator is suspended. *)
Definition suspended_at (g : evolve_gen) : option nat :=
  match g with AtYield n _ _ _ => Some n | _ => None end.

(** Where [evolve()] can be suspended, and how far it has come: the
    measure that bounds the number of its yields. *)
Definition well_formed (g : evolve_gen) : Prop :=
  match g with
  | AtYield n nip _ _ =>
      nip = 10%nat /\ (n mod 10 = 0)%nat /\ (n < num_steps)%nat
  | _ => True
  end.

Definition progress (g : evolve_gen) : nat :=
  match g with
  | AtYield n _ _ _ => n + 10
  | _ => 0
  end.

(** *** [multiplot_from_generator], for any generator *)

Section Multiplot.
Context {G A : Type}.
Variable next : G -> kernel -> signal A * G * kernel.

(** [for col in range(num_columns)]: a subplot, then [next(g)]. *)
Fixpoint row (num_columns : nat) (cols : list nat) (g : G) (k : kernel)
    : option exn * G * kernel :=
  match cols with
  | [] => (None, g, k)
  | col :: rest =>
      let k := emit (EvSubplot 1 num_columns (col + 1)%nat) k in
      match next g k with
      | (Yielded _, g, k) => row num_columns rest g k
      | (Raised e, g, k) => (Some e, g, k)
      end
  end.

(** [while True]: one figure per row; only an exception leaves. *)
Fixpoint rows (fuel num_columns : nat) (figsize : Qc * Qc) (g : G)
    (k : kernel) : option (exn * G * kernel) :=
  match fuel with
  | O => None
  | S fuel' =>
      let k := emit (EvFigure (fst figsize) (snd figsize)) k in
      match row num_columns (range num_columns) g k with
      | (None, g, k) => rows fuel' num_columns figsize g k
      | (Some e, g, k) => Some (e, g, k)
      end
  end.

(** The default of [figsize_for_one_row]: 15-inch rows of square
    subplots. *)
Definition default_figsize (num_columns : nat) : Qc * Qc :=
  (Q2Qc 15, (Q2Qc 15 / Q2Qc (Z.of_nat num_columns # 1))%Qc).

Definition multiplot_from_generator (fuel : nat) (g : G)
    (num_columns : nat) (figsize_for_one_row : option (Qc * Qc))
    (k : kernel) : option (option exn * G * kernel) :=
  let figsize :=
    match figsize_for_one_row with
    | Some fs => Ok fs
    | None =>
        if (num_columns =? 0)%nat then Raise ZeroDivisionError
        else Ok (default_figsize num_columns)
    end in
  match figsize with
  | Raise e => Some (Some e, g, k)
  | Ok fs =>
      match rows fuel num_columns fs g k with
      | None => None
      | Some (StopIteration, g, k) => Some (None, g, k)  (* except: pass *)
      | Some (e, g, k) => Some (Some e, g, k)
      end
  end.
End Multiplot.

(** The cell [multiplot_from_generator(evolve(), 5)]. *)
Definition cell_multiplot (fuel : nat) (k : kernel)
    : option (option exn * evolve_gen * kernel) :=
  multiplot_from_generator evolve_next fuel NotStarted 5 None k.

(** *** The second time-stepping cell, which saves every plot *)

Record stepping : Type := Stepping {
  st_u : Fn;
  st_t : Qc;
  st_kernel : kernel;
}.

Definition savefig_name (n : nat) : string :=
  "heat_2D_sqr/" +:+ "u_plot_" +:+ pretty n +:+ ".png".

Definition savefig_body (n : nat) (s : stepping) : option exn * stepping :=
  let k := emit EvSolve (st_kernel s) in
  match solve [u_n k] with
  | Raise e => (Some e, Stepping (st_u s) (st_t s) k)
  | Ok u =>
      let k := emit EvPlot k in
      match plot u with
      | Raise e => (Some e, Stepping u (st_t s) k)
      | Ok _ =>
          let k := emit (EvSavefig (savefig_name n)) k in
          let t := (st_t s + dt)%Qc in
          (None, Stepping u t (assign_u_n u k))
      end
  end.

Definition cell_savefig (k : kernel) : option exn * stepping :=
  for_in savefig_body (range num_steps) (Stepping Function_V (Q2Qc 0) k).

End WithFenics.
End Heat.

(** ** fn_simp_06d: a laser pulse crossing a crystal *)

Module Amplifier.
Section WithFenics.
Context {lib : Fenics}.

Definition Ld : Qc := Q2Qc 1.
Definition mesh_d : nat := 226.
Definition ds : Qc := (Ld / Q2Qc (Z.of_nat mesh_d # 1))%Qc.
Definition p_n0 : Qc := Q2Qc 100.
Definition c_D0 : Qc := Q2Qc 1000000.
Definition T : Qc := (Q2Qc 183 * ds)%Qc.
Definition n_steps : nat := 800.
Definition dt : Qc := (T / Q2Qc (Z.of_nat n_steps # 1))%Qc.
Definition nip : nat := 100.

(** The globals a cell can change: the previous photon density [nph_j]
    and inversion [Dcr_j], both read by the forms [a] and [L]. *)
Record kernel : Type := Kernel {
  nph_j : Fn;
  Dcr_j : Fn;
  log : list event;
}.

Definition emit (e : event) (k : kernel) : kernel :=
  Kernel (nph_j k) (Dcr_j k) (log k ++ [e]).

(** [nph_j.assign(nph)] and [Dcr_j.assign(Dcr)] *)
Definition assign_nph_j (nph : Fn) (k : kernel) : kernel :=
  Kernel nph (Dcr_j k) (log k ++ [EvAssign "nph_j"]).

Definition assign_Dcr_j (Dcr : Fn) (k : kernel) : kernel :=
  Kernel (nph_j k) Dcr (log k ++ [EvAssign "Dcr_j"]).

(** *** The cell "Execute simulation" *)

Record stepping : Type := Stepping {
  st_nph : Fn;
  st_Dcr : Fn;
  st_t : Qc;
  st_kernel : kernel;
}.

Definition step_body (ii : nat) (s : stepping) : option exn * stepping :=
  let t := (st_t s + dt)%Qc in
  let k := emit EvSolve (st_kernel s) in
  match solve [nph_j k; Dcr_j k] with
  | Raise e => (Some e, Stepping (st_nph s) (st_Dcr s) t k)
  | Ok nph =>
      let plotted :=
        if (ii mod nip =? 0)%nat then
          match plot (fdiv (st_Dcr s) (c_D0 / p_n0)%Qc) with
          | Raise e => (Some e, emit EvPlot k)
          | Ok _ => (None, emit EvPlot k)
          end
        else (None, k) in
      match plotted with
      | (Some e, k) => (Some e, Stepping nph (st_Dcr s) t k)
      | (None, k) =>
          let k := assign_nph_j nph k in
          let k := assign_Dcr_j (st_Dcr s) k in
          (None, Stepping nph (st_Dcr s) t k)
      end
  end.

Definition cell_execute (k : kernel) : option exn * stepping :=
  let k := emit (EvAssign "Dcr") k in
  let k := emit (EvFigure (Q2Qc 13) (Q2Qc 8)) k in
  let k := emit (EvPlt "title") k in
  let s := Stepping Function_V (Dcr_j k) (Q2Qc 0) k in
  match for_in step_body (range n_steps) s with
  | (Some e, s) => (Some e, s)
  | (None, s) =>
      let k := emit (EvPlt "axvline") (st_kernel s) in
      let k := emit (EvPlt "axvline") k in
      let k := emit EvPlot k in
      match plot (fdiv (st_Dcr s) (c_D0 / p_n0)%Qc) with
      | Raise e => (Some e, Stepping (st_nph s) (st_Dcr s) (st_t s) k)
      | Ok _ =>
          let k := emit (EvPlt "grid") k in
          let k := emit (EvPlt "show") k in
          let k := emit (EvPlt "close") k in
          (None, Stepping (st_nph s) (st_Dcr s) (st_t s) k)
      end
  end.

(** *** The generator [evolve()] and the loop that plots what it yields *)

Inductive evolve_gen : Type :=
| NotStarted
| AtYield (ii : nat) (nph : Fn) (t : Qc)  (* at the yield inside the loop *)
| AtFinalYield                            (* at the yield after the loop *)
| Finished.

Fixpoint evolve_loop (remaining ii : nat) (nph : Fn) (t : Qc) (k : kernel)
    : signal Fn * evolve_gen * kernel :=
  match remaining with
  | O =>
      (* after the loop, [ii] is the last index the loop took *)
      match ii with
      | O => (Raised (NameError "ii"), Finished, k)
      | S last =>
          if (last mod nip =? 0)%nat then (Yielded nph, AtFinalYield, k)
          else (Raised StopIteration, Finished, k)
      end
  | S remaining' =>
      let t := (t + dt)%Qc in
      let k := emit EvSolve k in
      match solve [nph_j k; Dcr_j k] with
      | Raise e => (Raised (generator_raise e), Finished, k)
      | Ok nph =>
          if (ii mod nip =? 0)%nat then (Yielded nph, AtYield ii nph t, k)
          else evolve_loop remaining' (S ii) nph t (assign_nph_j nph k)
      end
  end.

Definition evolve_next (g : evolve_gen) (k : kernel)
    : signal Fn * evolve_gen * kernel :=
  match g with
  | NotStarted => evolve_loop n_steps 0 Function_V (Q2Qc 0) k
  | AtYield ii nph t =>
      evolve_loop (n_steps - S ii) (S ii) nph t (assign_nph_j nph k)
  | AtFinalYield | Finished => (Raised StopIteration, Finished, k)
  end.

(** Where [evolve()] can be suspended, and how far it has come. *)
Definition well_formed (g : evolve_gen) : Prop :=
  match g with
  | AtYield ii _ _ => (ii mod 100 = 0)%nat /\ (ii < n_steps)%nat
  | _ => True
  end.

Definition progress (g : evolve_gen) : nat :=
  match g with
  | AtYield ii _ _ => ii + 100
  | AtFinalYield => 900
  | _ => 0
  end.

Definition n_rows : nat := 3.
Definition n_cols : nat := 5.

(** [for u in evolve()]: the loop ends when [next] raises
    [StopIteration]. *)
Fixpoint plot_yields (fuel idx : nat) (g : evolve_gen) (k : kernel)
    : option (option exn * nat * evolve_gen * kernel) :=
  match fuel with
  | O => None
  | S fuel' =>
      match evolve_next g k with
      | (Raised StopIteration, g, k) => Some (None, idx, g, k)
      | (Raised e, g, k) => Some (Some e, idx, g, k)
      | (Yielded u, g, k) =>
          let idx := (idx + 1)%nat in
          let k := emit (EvSubplot n_rows n_cols idx) k in
          let k := emit EvPlot k in
          match plot u with
          | Raise e => Some (Some e, idx, g, k)
          | Ok _ => plot_yields fuel' idx g k
          end
      end
  end.

Definition cell_plot_yields (fuel : nat) (k : kernel)
    : option (option exn * nat * evolve_gen * kernel) :=
  let fig_wd := 15%nat in
  let k := emit (EvFigure (Q2Qc (Z.of_nat fig_wd # 1))
                   (Q2Qc (Z.of_nat (fig_wd * n_rows / n_cols)%nat # 1))) k in
  let k := emit (EvPlt "subplots_adjust") k in
  plot_yields fuel 0 NotStarted k.

End WithFenics.
End Amplifier.

(** ** The SRW interface used by the two wavefront notebooks *)

Class SRW : Type := {
  Wfr : Type;                    (* the state of an SRWLWfr object *)
  Optics : Type;                 (* an optical container (beamline) *)
  Intensity : Type;              (* a 2D intensity array *)
  createDriftLensBL : Qc -> Qc -> Optics;
  createDriftBL : Qc -> Optics;
  createBL1to1 : Qc -> Qc -> Optics;
  PropagElecField : Wfr -> Optics -> res Wfr;  (* the new state of the
                                    wavefront the call changes in place *)
  rmsWavefrontIntensity : Wfr -> Qc * Qc;
  CalcIntFromElecField : Wfr -> Intensity;
}.

(** An SRW all of whose propagations succeed. *)
Definition succeeding_srw {W O I : Type} (lens : Qc -> Qc -> O)
    (drift : Qc -> O) (one_to_one : Qc -> Qc -> O) (propag : W -> O -> W)
    (rms : W -> Qc * Qc) (intensity : W -> I) : SRW :=
  {| Wfr := W; Optics := O; Intensity := I;
     createDriftLensBL := lens; createDriftBL := drift;
     createBL1to1 := one_to_one;
     PropagElecField := fun w bl => Ok (propag w bl);
     rmsWavefrontIntensity := rms;
     CalcIntFromElecField := intensity |}.

(** Wavefront objects are changed in place and shared by reference: the
    store maps a reference to the state of its object. *)
Module Objects.
Section WithSRW.
Context {srw : SRW}.

Definition ref : Type := nat.

(** [deepcopy(r)]: a new object with the state of [r]. *)
Definition deepcopy (r : ref) (store : gmap ref Wfr) : ref * gmap ref Wfr :=
  let r' := fresh (dom store) in
  match store !! r with
  | Some w => (r', <[r' := w]> store)
  | None => (r', store)
  end.

(** [srwl.PropagElecField(r, bl)]: the object of [r] takes its
    propagated state; the other objects keep theirs. *)
Definition propagate_in_place (r : ref) (bl : Optics) (store : gmap ref Wfr)
    : option exn * gmap ref Wfr :=
  match store !! r with
  | Some w =>
      match PropagElecField w bl with
      | Ok w' => (None, <[r := w']> store)
      | Raise e => (Some e, store)
      end
  | None => (None, store)
  end.

End WithSRW.
End Objects.

(** ** The cavity propagation notebook *)

Module Cavity.
Import Objects.
Section WithSRW.
Context {srw : SRW}.

Definition Lc : Qc := Q2Qc 10.
Definition dfR : Qc := Q2Qc 0.
Definition dfL : Qc := Q2Qc 0.
Definition npass : nat := 4.

Definition propagateRight : Optics := createDriftLensBL Lc dfR.
Definition propagateLeft : Optics := createDriftLensBL Lc dfL.
Definition propagateDrift : Optics := createDriftBL Lc.

Record kernel : Type := Kernel {
  store : gmap ref Wfr;
  cavitywfrList : list ref;
  log : list event;
}.

(** [w = deepcopy(src); srwl.PropagElecField(w, bl);
    cavitywfrList.append(w)]; the reference of [w] is returned. *)
Definition copy_propagate_append (src : ref) (name : string) (bl : Optics)
    (k : kernel) : option exn * ref * kernel :=
  let '(w, st) := deepcopy src (store k) in
  let lg := log k ++ [EvDeepcopy; EvPropagElecField name] in
  match propagate_in_place w bl st with
  | (Some e, st) => (Some e, w, Kernel st (cavitywfrList k) lg)
  | (None, st) => (None, w, Kernel st (cavitywfrList k ++ [w]) lg)
  end.

(** One pass of the cavity: right, drift, left, drift. *)
Definition pass_body (i : nat) (k : kernel) : option exn * kernel :=
  match last (cavitywfrList k) with
  | None => (Some IndexError, k)            (* cavitywfrList[-1] *)
  | Some src =>
      match copy_propagate_append src "propagateRight" propagateRight k with
      | (Some e, _, k) => (Some e, k)
      | (None, wfr, k) =>
      match copy_propagate_append wfr "propagateDrift" propagateDrift k with
      | (Some e, _, k) => (Some e, k)
      | (None, wfr2, k) =>
      match copy_propagate_append wfr2 "propagateLeft" propagateLeft k with
      | (Some e, _, k) => (Some e, k)
      | (None, wfr3, k) =>
      match copy_propagate_append wfr3 "propagateDrift" propagateDrift k with
      | (Some e, _, k) => (Some e, k)
      | (None, wfr4, k) => (None, k)
      end end end end
  end.

(** The reference of the first object the notebook creates, and the
    kernel once [createGsnSrcSRW] has made it. *)
Definition wfrCenter0 : ref := fresh (∅ : gset ref).

Definition initial (gsn : Wfr) : kernel :=
  Kernel {[ wfrCenter0 := gsn ]} [] [].

(** The cell: [cavitywfrList = [wfrCenter0]], then [passes] passes
    ([npass] of them in the notebook). *)
Definition cell_propagate (passes : nat) (k : kernel) : option exn * kernel :=
  for_in pass_body (range passes)
         (Kernel (store k) [wfrCenter0] (log k)).

Definition cell_cavity (gsn : Wfr) : option exn * kernel :=
  cell_propagate npass (initial gsn).

(** The optics of one pass, in the order the loop applies them. *)
Definition pass_optics : list Optics :=
  [propagateRight; propagateDrift; propagateLeft; propagateDrift].

(** The state of the object at position [j] of the list. *)
Definition wavefront_at (j : nat) (k : kernel) : option Wfr :=
  r ← cavitywfrList k !! j; store k !! r.

(** The cell that prints the rms sizes:
    [for j in range(np.size(cavitywfrList))]. *)
Definition cell_rms (k : kernel) : list (Qc * Qc) :=
  omap (fun j => rmsWavefrontIntensity <$> wavefront_at j k)
       (range (length (cavitywfrList k))).

End WithSRW.
End Cavity.

(** ** The notebook on wavefront objects in and out of SRW *)

Module Wavefront.
Import Objects.
Section WithSRW.
Context {srw : SRW}.

Record kernel : Type := Kernel {
  store : gmap ref Wfr;
  arIinit2D : option Intensity;
  log : list event;
}.



(** The cell that propagates a copy of [wfr0] through the 1:1 beamline. *)
Definition cell_propagate (wfr0 : ref) (k : kernel) : option exn * ref * kernel :=
  let L := Q2Qc 15 in
  let '(wfr1, st) := deepcopy wfr0 (store k) in
  let optBL1to1 := createBL1to1 L (Q2Qc 0) in
  let lg := log k ++ [EvDeepcopy; EvPropagElecField "optBL1to1"] in
  match propagate_in_place wfr1 optBL1to1 st with
  | (Some e, st) => (Some e, wfr1, Kernel st (arIinit2D k) lg)
  | (None, st) =>
      (None, wfr1, Kernel st (arIinit2D k) (lg ++ [EvPrint "Propagation time"]))
  end.

End WithSRW.
End Wavefront.

(** ** Arrays of the two closed-form notebooks *)

(** [for i in range(...)] with a body that cannot raise. *)
Definition for_each {S : Type} (body : nat -> S -> S) (indices : list nat)
    (s : S) : S :=
  fold_left (fun s i => body i s) indices s.

(** [np.zeros(n)], and [a[i]] for an index inside the array. *)
Definition zeros (n : nat) : list R := replicate n 0%R.

Definition item (a : list R) (i : nat) : R := default 0%R (a !! i).

(** ** fn1d_02: the analytic Frantz-Nodvik gain *)

Module FN1D.
Local Open Scope R_scope.

Definition c : R := 299792458.         (* scipy.constants.c *)
Definition c_cm : R := 100 * c.

(** The six values the gain cell starts from. *)
Record params : Type := Params {
  gamma_ts : R;
  sigma_ts : R;
  delta_ts_0 : R;
  n_ph_0 : R;
  tau_pulse : R;
  length_ts : R;
}.

Definition eta_pulse (p : params) : R := n_ph_0 p * c_cm * tau_pulse p.

Definition epsilon_ts (p : params) : R :=
  gamma_ts p * sigma_ts p * eta_pulse p.

Definition g_e_max (p : params) : R :=
  1 + delta_ts_0 p * length_ts p / gamma_ts p / eta_pulse p.

Definition factor_ts (p : params) : R :=
  sigma_ts p * delta_ts_0 p * length_ts p.

Definition factor_max (p : params) : R := ln (g_e_max p).

(** The two assignments under [if factor_ts < factor_max]. *)
Definition g_e_formula (p : params) : R :=
  ln (1 + exp (factor_ts p) * (exp (epsilon_ts p) - 1)) / epsilon_ts p.

Definition delta_ts_formula (p : params) (g_e : R) : R :=
  delta_ts_0 p - (gamma_ts p * eta_pulse p / length_ts p) * (g_e - 1).

(** [g_e] and [delta_ts] at the end of the cell. *)
Definition gain (p : params) : R * R :=
  let g_e := g_e_max p in
  let delta_ts := 0 in
  if Rlt_dec (factor_ts p) (factor_max p) then
    let g_e := g_e_formula p in
    let delta_ts := delta_ts_formula p g_e in
    (g_e, delta_ts)
  else (g_e, delta_ts).

Definition g_e (p : params) : R := fst (gain p).
Definition delta_ts (p : params) : R := snd (gain p).
Definition n_ph (p : params) : R := g_e p * n_ph_0 p.

(** What the cell prints, in order. *)
Definition printed_early (p : params) : list (string * R) :=
  [("eta_pulse", eta_pulse p); ("epsilon_ts", epsilon_ts p)].

Definition printed_late (p : params) : list (string * R) :=
  [("factor_ts", factor_ts p); ("factor_max", factor_max p);
   ("delta_ts_0", delta_ts_0 p); ("delta_ts", delta_ts p);
   ("n_ph_0", n_ph_0 p); ("g_e", g_e p); ("n_ph", n_ph p)].

(** The cell of initial conditions. *)
Definition cell_initial (ns : gmap string R) : gmap string R :=
  let gamma_ts_1 := 1 in
  let gamma_ts_2 := 1 in
  <["n_ph_0" := 1e11]> (<["delta_ts_0" := 1e21]> (<["sigma_ts" := 1.5e-19]>
  (<["gamma_ts" := 1 + gamma_ts_1 / gamma_ts_2]>
  (<["gamma_ts_2" := gamma_ts_2]> (<["gamma_ts_1" := gamma_ts_1]> ns))))).

(** The gain cell on the namespace [ns] of the kernel.  The names
    [n_ph_0], [gamma_ts], [sigma_ts] and [delta_ts_0] are bound by an
    earlier cell and read where the cell first uses them; the cell binds
    [tau_pulse] and [length_ts] itself.  The result is the exception (if
    a name is unbound), the lines printed and the new namespace. *)
Definition cell_gain_with (tau len : R) (ns : gmap string R)
    : option exn * list (string * R) * gmap string R :=
  let ns1 := <["tau_pulse" := tau]> (<["c_cm" := c_cm]> ns) in
  match ns !! "n_ph_0" with
  | None => (Some (NameError "n_ph_0"), [], ns1)
  | Some n0 =>
  let ns2 := <["length_ts" := len]> (<["eta_pulse" := n0 * c_cm * tau]> ns1) in
  match ns !! "gamma_ts" with
  | None => (Some (NameError "gamma_ts"), [], ns2)
  | Some gam =>
  match ns !! "sigma_ts" with
  | None => (Some (NameError "sigma_ts"), [], ns2)
  | Some sig =>
  match ns !! "delta_ts_0" with
  | None =>
      let p := Params gam sig 0 n0 tau len in
      (Some (NameError "delta_ts_0"), printed_early p,
       <["epsilon_ts" := epsilon_ts p]> ns2)
  | Some del =>
      let p := Params gam sig del n0 tau len in
      (None, printed_early p ++ printed_late p,
       <["n_ph" := n_ph p]> (<["delta_ts" := delta_ts p]>
       (<["g_e" := g_e p]> (<["factor_max" := factor_max p]>
       (<["factor_ts" := factor_ts p]> (<["g_e_max" := g_e_max p]>
       (<["epsilon_ts" := epsilon_ts p]> ns2)))))))
  end end end end.

Definition cell_gain : gmap string R
    -> option exn * list (string * R) * gmap string R :=
  cell_gain_with 1e-9 1.

(** All six values are positive. *)
Definition positive (p : params) : Prop :=
  0 < gamma_ts p /\ 0 < sigma_ts p /\ 0 < delta_ts_0 p
  /\ 0 < n_ph_0 p /\ 0 < tau_pulse p /\ 0 < length_ts p.

(** The values of the notebook. *)
Definition notebook : params := Params (1 + 1 / 1) 1.5e-19 1e21 1e11 1e-9 1.

(** The plotting cell: the profile of inverted states. *)
Definition num_points : nat := 100.

Definition profile_body (p : params) (i : nat) (delta_ts_1 : list R) : list R :=
  let x := INR i * length_ts p / INR (num_points - 1) in
  <[i := delta_ts_0 p
         / (1 + exp (sigma_ts p * delta_ts_0 p * x) * (exp (epsilon_ts p) - 1))]>
    delta_ts_1.

Definition cell_profile (p : params) : list R :=
  for_each (profile_body p) (range num_points) (zeros num_points).

End FN1D.

(** ** laser_amp_test_01: the photon density along the crystal *)

Module LaserAmp.
Local Open Scope R_scope.

Definition c : R := 299792458.         (* scipy.constants.c *)

Definition gamma_ts_1 : R := 1000.
Definition gamma_ts_2 : R := 10.
Definition gamma_ts : R := 1 + gamma_ts_1 / gamma_ts_2.
Definition sigma_ts : R := 8e-19.
Definition delta_ts : R := 1.
Definition n_ph_ts : R := 1e6.

Definition n_ph_0 : R := n_ph_ts.
Definition delta_0 : R := delta_ts.
Definition time_0 : R := 0.
Definition tau_pulse : R := 1e-9.
Definition eta_pulse : R := n_ph_0 * c * tau_pulse.
Definition time_f : R := tau_pulse.
Definition length_ts : R := 0.01.

Definition num_points : nat := 10.
Definition dt : R := (time_f - time_0) / INR (num_points - 1).
Definition dz : R := length_ts / INR (num_points - 1).

(** [t_data[i] = time_0 + i*dt; z_data[i] = i*dz] *)
Definition data_body (i : nat) (td_zd : list R * list R) : list R * list R :=
  (<[i := time_0 + INR i * dt]> (fst td_zd), <[i := INR i * dz]> (snd td_zd)).

Definition data : list R * list R :=
  for_each data_body (range num_points) (zeros num_points, zeros num_points).

Definition t_data : list R := fst data.
Definition z_data : list R := snd data.

(** The argument of [np.exp] and the denominator of [n_data[j]]. *)
Definition exponent (j : nat) : R :=
  - gamma_ts * sigma_ts * eta_pulse * (item t_data 1 - item z_data j / c)
  / tau_pulse.

Definition denominator (j : nat) : R := 1 - exp (exponent j).

Definition n_data_body (j : nat) (n_data : list R) : list R :=
  <[j := n_ph_0 / denominator j]> n_data.

Definition n_data : list R :=
  for_each n_data_body (range num_points) (zeros num_points).

End LaserAmp.

(** ** Concrete libraries, to run the notebooks on *)

(** A FEniCS whose functions are counters: a solve gives the successor
    of its first coefficient. *)
Definition counting_fenics : Fenics :=
  succeeding (F := nat) (A := nat) 0%nat (fun coeffs => S (hd 0%nat coeffs))
             (fun f => f) (fun f _ => f).

(** A FEniCS whose solver always fails. *)
Definition failing_fenics : Fenics :=
  {| Fn := nat; Artist := nat; Function_V := 0%nat;
     solve := fun _ => Raise (LibraryError 1);
     plot := fun f => Ok f;
     fdiv := fun f _ => f |}.

(** An SRW whose wavefronts are the lists of the optics they crossed. *)
Definition tracing_srw : SRW :=
  succeeding_srw (W := list string) (O := string) (I := nat)
    (fun _ _ => "lens") (fun _ => "drift") (fun _ _ => "1to1")
    (fun w bl => w ++ [bl]) (fun _ => (Q2Qc 0, Q2Qc 0)) (fun w => length w).

(** Kernels of the concrete libraries, before the loops run. *)
Definition counting_heat_kernel : Heat.kernel (lib := counting_fenics) :=
  Heat.Kernel (lib := counting_fenics) 0%nat [].

Definition failing_heat_kernel : Heat.kernel (lib := failing_fenics) :=
  Heat.Kernel (lib := failing_fenics) 0%nat [].

Definition tracing_cavity_kernel : Cavity.kernel (srw := tracing_srw) :=
  Cavity.Kernel (srw := tracing_srw)
    {[ Cavity.wfrCenter0 := [] ]}
    [Cavity.wfrCenter0] [].


(** A generator that yields for ever. *)
Definition endless_next {K : Type} (g : unit) (k : K) : signal unit * unit * K :=
  (Yielded tt, g, k).

(** ** Reading the log *)

(** The solver calls of a time-stepping loop and the assignments to
    [target], which end each of its iterations. *)
Definition is_mark (target : string) (e : event) : bool :=
  match e with
  | EvSolve => true
  | EvAssign x => String.eqb x target
  | _ => false
  end.

Definition marks (target : string) (log : list event) : list event :=
  filter (fun e => is_mark target e = true) log.

Definition solver_trace (log : list event) : list event :=
  filter (fun e => is_solver_call e = true) log.

(** [n] iterations that each leave the events [iteration]. *)
Definition iterations (n : nat) (iteration : list event) : list event :=
  concat (replicate n iteration).

(** The steps at which the yields of a drained generator happened. *)
Definition heat_yield_steps {lib : Fenics}
    (ys : list (Artist * Heat.evolve_gen)) : list nat :=
  omap (fun y => Heat.suspended_at (snd y)) ys.

(** ** What a call leaves in the log *)

Definition is_figure (e : event) : bool :=
  match e with EvFigure _ _ => true | _ => false end.

Definition is_subplot (e : event) : bool :=
  match e with EvSubplot _ _ _ => true | _ => false end.

Definition count_events (f : event -> bool) (log : list event) : nat :=
  length (filter (fun e => f e = true) log).

(** The calls [plt.subplot(1, nc, col+1)] of one row. *)
Definition subplot_events (nc : nat) (cols : list nat) : list event :=
  (fun col => EvSubplot 1 nc (col + 1)%nat) <$> cols.


(** A finite sequence as a generator: [iter(l)]. *)
Definition list_next {A K : Type} (l : list A) (k : K)
    : signal A * list A * K :=
  match l with
  | [] => (Raised StopIteration, [], k)
  | a :: rest => (Yielded a, rest, k)
  end.

Section KernelStates.
Context {lib : Fenics}.

(** The kernel [k'] differs from [k] by [figures] calls of [plt.figure]
    and [subplots] calls of [plt.subplot] at the end of its log, and by
    nothing else. *)
Definition added (k k' : Heat.kernel) (figures subplots : nat) : Prop :=
  Heat.u_n k' = Heat.u_n k
  /\ length (Heat.log k') = (length (Heat.log k) + figures + subplots)%nat
  /\ count_events is_figure (Heat.log k')
     = (count_events is_figure (Heat.log k) + figures)%nat
  /\ count_events is_subplot (Heat.log k')
     = (count_events is_subplot (Heat.log k) + subplots)%nat.

(** The states in which [evolve()] of the amplifier notebook can be
    suspended or not running: the yield after the loop is not among
    them. *)
Definition reachable (g : Amplifier.evolve_gen) : Prop :=
  match g with
  | Amplifier.AtYield ii _ _ =>
      (ii mod Amplifier.nip = 0)%nat /\ (ii < Amplifier.n_steps)%nat
  | Amplifier.AtFinalYield => False
  | _ => True
  end.

End KernelStates.

(** ** fn_simp_06d: the initial profiles and the boundary *)

Module AmplifierInit.
Local Open Scope R_scope.

Definition Ld : R := 1.
Definition mesh_d : R := 226.
Definition ds : R := Ld / mesh_d.
Definition p_w : R := (50 - 4) * ds.
Definition p_hw : R := p_w / 2.
Definition p_x0 : R := p_hw + 2 * ds.
Definition p_n0 : R := 100.
Definition c_w : R := 70 * ds.
Definition c_hw : R := c_w / 2.
Definition c_x0 : R := 85 * ds.
Definition c_D0 : R := 1e6.

(** [abs(x[0] - x0) < hw ? peak * cos(pi * (x[0] - x0) / w) : 0.] *)
Definition half_wave (peak w hw x0 x : R) : R :=
  if Rlt_dec (Rabs (x - x0)) hw then peak * cos (PI * (x - x0) / w) else 0.

Definition nph_init : R -> R := half_wave p_n0 p_w p_hw p_x0.
Definition Dcr_init : R -> R := half_wave c_D0 c_w c_hw c_x0.

(** [on_L] and [on_R]; [near] is DOLFIN's comparison up to a
    tolerance. *)
Definition on_L (near : R -> R -> bool) (x : R) (on_boundary : bool) : bool :=
  on_boundary && near x 0.

Definition on_R (near : R -> R -> bool) (x : R) (on_boundary : bool) : bool :=
  on_boundary && near x 1.

End AmplifierInit.

(** ** The list of the cavity as a chain of propagations *)

Section CavityChain.
Context {srw : SRW}.

(** Element [j + 1] of the list holds element [j] propagated through
    the optics that position [j] has in a pass. *)
Definition chained (j : nat) (k : Cavity.kernel) : Prop :=
  Cavity.wavefront_at (S j) k
  = (w ← Cavity.wavefront_at j k;
     bl ← Cavity.pass_optics !! (j mod 4)%nat;
     match PropagElecField w bl with
     | Ok w' => Some w'
     | Raise _ => None
     end).

(** [m] propagations have been appended after the first wavefront,
    whose state is [w0]. *)
Definition grown (w0 : Wfr) (m : nat) (k : Cavity.kernel) : Prop :=
  length (Cavity.cavitywfrList k) = S m
  /\ NoDup (Cavity.cavitywfrList k)
  /\ (forall r, r ∈ Cavity.cavitywfrList k -> is_Some (Cavity.store k !! r))
  /\ Cavity.wavefront_at 0 k = Some w0
  /\ forall j, (j < m)%nat -> chained j k.

End CavityChain.

(** ** fn1d_02: the value the plotting cell stores at index [i] *)


(** * Properties *)

(** ** fn1d_02: the guard of the analytic gain, over the reals *)

Section AnalyticGain.
Import FN1D.
Local Open Scope R_scope.

Lemma pow_le_exp (x : R) (n : nat) : 0 <= x -> (1 + x) ^ n <= exp (INR n * x).
Proof.
  intros Hx. induction n as [|n IH].
  - simpl. rewrite Rmult_0_l, exp_0. lra.
  - rewrite S_INR, Rmult_plus_distr_r, Rmult_1_l, exp_plus. simpl.
    pose proof (exp_ineq1_le x) as H1.
    pose proof (exp_pos (INR n * x)) as H2.
    assert (0 <= (1 + x) ^ n) by (apply pow_le; lra).
    rewrite (Rmult_comm (exp _)). apply Rmult_le_compat; lra.
Qed.




Section Positive.
Variable p : params.
Hypothesis Hparams : positive p.

Lemma eta_pulse_pos : 0 < eta_pulse p.
Proof.
  pose proof Hparams as (Hgamma & Hsigma & Hdelta & Hnph & Htau & Hlength).
  unfold eta_pulse, c_cm, c.
  apply Rmult_lt_0_compat; [apply Rmult_lt_0_compat|]; lra.
Qed.

Lemma epsilon_ts_pos : 0 < epsilon_ts p.
Proof.
  pose proof Hparams as (Hgamma & Hsigma & Hdelta & Hnph & Htau & Hlength).
  unfold epsilon_ts. pose proof eta_pulse_pos.
  apply Rmult_lt_0_compat; [apply Rmult_lt_0_compat|]; lra.
Qed.

Lemma factor_ts_pos : 0 < factor_ts p.
Proof.
  pose proof Hparams as (Hgamma & Hsigma & Hdelta & Hnph & Htau & Hlength).
  unfold factor_ts.
  apply Rmult_lt_0_compat; [apply Rmult_lt_0_compat|]; lra.
Qed.

(** [epsilon_ts * (g_e_max - 1) = factor_ts] *)
Lemma epsilon_g_e_max : epsilon_ts p * g_e_max p = epsilon_ts p + factor_ts p.
Proof.
  pose proof Hparams as (Hgamma & Hsigma & Hdelta & Hnph & Htau & Hlength).
  pose proof eta_pulse_pos.
  unfold epsilon_ts, g_e_max, factor_ts. field. lra.
Qed.

Lemma g_e_max_gt_1 : 1 < g_e_max p.
Proof.
  pose proof Hparams as (Hgamma & Hsigma & Hdelta & Hnph & Htau & Hlength).
  pose proof epsilon_ts_pos. pose proof factor_ts_pos.
  pose proof epsilon_g_e_max. nra.
Qed.





End Positive.


Lemma gain_saturated (p : params) :
  ~ factor_ts p < factor_max p -> gain p = (g_e_max p, 0).
Proof. intros H. unfold gain. destruct (Rlt_dec _ _); [contradiction|reflexivity]. Qed.

Lemma notebook_positive : positive notebook.
Proof. unfold positive, notebook; simpl. repeat split; lra. Qed.

Lemma notebook_factor_ts : factor_ts notebook = 150.
Proof. unfold factor_ts, notebook; simpl. lra. Qed.

Lemma notebook_g_e_max_small : g_e_max notebook <= 1e12.
Proof.
  unfold g_e_max, eta_pulse, c_cm, c, notebook; simpl.
  lra.
Qed.

Lemma notebook_saturated : ~ factor_ts notebook < factor_max notebook.
Proof.
  rewrite notebook_factor_ts. unfold factor_max. intros H.
  pose proof (g_e_max_gt_1 notebook notebook_positive) as H1.
  apply exp_increasing in H. rewrite exp_ln in H by lra.
  pose proof (pow_le_exp 15 10 ltac:(lra)) as H2.
  replace (INR 10 * 15) with 150 in H2 by (simpl; lra).
  pose proof notebook_g_e_max_small.
  lra.
Qed.








End AnalyticGain.

(** ** xt02_heat_2D_square with a library that does not fail *)

Section HeatRuns.
Import Heat.
Context {F A : Type}.
Variables (zero : F) (solve_fn : list F -> F) (plot_fn : F -> A)
          (div_fn : F -> Qc -> F).
Local Abbreviation ok := (succeeding zero solve_fn plot_fn div_fn).

(** The kernel before the first time-stepping cell runs: [u_n] is the
    interpolated initial value [u0]. *)
Local Abbreviation fresh_kernel u0 := (@Kernel ok u0 []).

Lemma drain_evolve (u0 : F) :
  exists ys k',
    drain (@evolve_next ok) 6 NotStarted (fresh_kernel u0)
    = Some (ys, StopIteration, k')
    /\ heat_yield_steps ys = [0; 10; 20; 30; 40]%nat
    /\ length ys = 5%nat
    /\ length (filter (fun e => is_plot e = true) (log k')) = 5%nat.
Proof. eexists. eexists. vm_compute. repeat split. Qed.

Lemma multiplot_marks (u0 : F) :
  exists g k',
    cell_multiplot 2 (fresh_kernel u0) = Some (None, g, k')
    /\ marks "u_n" (log k') = iterations 50 [EvSolve; EvAssign "u_n"].
Proof. eexists. eexists. vm_compute. repeat split. Qed.

Lemma savefig_marks (u0 : F) :
  exists s,
    cell_savefig (fresh_kernel u0) = (None, s)
    /\ marks "u_n" (log (st_kernel s)) = iterations 50 [EvSolve; EvAssign "u_n"].
Proof. eexists. vm_compute. repeat split. Qed.



End HeatRuns.

(** ** xt02_heat_2D_square with any library: exceptions and termination *)

Section HeatAnyLibrary.
Import Heat.
Context {lib : Fenics}.

(** A yield of [evolve] happens at a step of the loop that is a
    multiple of [nip]. *)
Lemma evolve_loop_yield remaining n nip u t k a g' k' :
  evolve_loop remaining n nip u t k = (Yielded a, g', k') ->
  exists m u' t',
    g' = AtYield m nip u' t' /\ (n <= m < n + remaining)%nat
    /\ (m mod nip = 0)%nat.
Proof.
  revert n u t k. induction remaining as [|r IH]; intros n u t k H; simpl in H.
  - discriminate.
  - destruct (solve _) as [u1|e]; [|discriminate].
    destruct (n mod nip =? 0)%nat eqn:Hmod.
    + destruct (plot u1) as [p|e]; [|discriminate].
      injection H as _ <- _. apply Nat.eqb_eq in Hmod.
      eexists n, u1, _. repeat split; [lia|lia|exact Hmod].
    + apply IH in H as (m & u' & t' & -> & Hm & Hmod').
      eexists m, u', t'. repeat split; [lia|lia|exact Hmod'].
Qed.

Lemma progress_bound g : well_formed g -> (progress g < 60)%nat.
Proof. destruct g; simpl; unfold num_steps; lia. Qed.

Lemma evolve_next_yield g k a g' k' :
  well_formed g ->
  evolve_next g k = (Yielded a, g', k') ->
  well_formed g' /\ (progress g + 10 <= progress g')%nat.
Proof.
  intros Hwf H. destruct g as [|n nip u t|]; unfold evolve_next in H.
  - apply evolve_loop_yield in H as (m & u' & t' & -> & Hm & Hmod).
    unfold well_formed, progress, num_steps in *. repeat split; lia.
  - destruct Hwf as (-> & Hn & Hlt).
    apply evolve_loop_yield in H as (m & u' & t' & -> & Hm & Hmod).
    pose proof (Nat.div_mod_eq n 10). pose proof (Nat.div_mod_eq m 10).
    unfold well_formed, progress, num_steps in *. repeat split; lia.
  - discriminate.
Qed.

Lemma row_completes nc cols g k g' k' :
  well_formed g ->
  row evolve_next nc cols g k = (None, g', k') ->
  well_formed g' /\ (progress g + 10 * length cols <= progress g')%nat.
Proof.
  revert g k. induction cols as [|col rest IH]; intros g k Hwf H; simpl in H.
  - injection H as <- _. split; [exact Hwf|simpl; lia].
  - destruct (evolve_next g _) as [[[a|e] g1] k1] eqn:Hnext; [|discriminate].
    apply evolve_next_yield in Hnext as [Hwf1 Hp1]; [|exact Hwf].
    apply IH in H as [Hwf' Hp']; [|exact Hwf1].
    split; [exact Hwf'|simpl; lia].
Qed.

(** Two rows of five columns exhaust [evolve()]. *)
Lemma rows_return figsize k :
  exists e g' k', rows evolve_next 2 5 figsize NotStarted k = Some (e, g', k').
Proof.
  cbn [rows].
  destruct (row evolve_next 5 (range 5) NotStarted _)
    as [[[e|] g1] k1] eqn:H1; [eauto|].
  apply row_completes in H1 as [Hwf1 Hp1]; [|exact I].
  destruct (row evolve_next 5 (range 5) g1 _)
    as [[[e|] g2] k2] eqn:H2; [eauto|].
  apply row_completes in H2 as [Hwf2 Hp2]; [|exact Hwf1].
  pose proof (progress_bound g2 Hwf2).
  change (length (range 5)) with 5%nat in *. lia.
Qed.

Lemma cell_multiplot_returns k :
  exists r g' k', cell_multiplot 2 k = Some (r, g', k').
Proof.
  unfold cell_multiplot, multiplot_from_generator. simpl Nat.eqb. cbv iota.
  destruct (rows_return (default_figsize 5) k) as (e & g' & k' & ->).
  destruct e; eauto.
Qed.

End HeatAnyLibrary.

Section Multiplot.
Import Heat.
Context {lib : Fenics} {G A : Type}.
Variable next : G -> kernel -> signal A * G * kernel.

(** The loop over the columns stops at the first exception, in the
    state in which [next] raised it. *)
Lemma row_raises nc col rest g k e g' k' :
  next g (emit (EvSubplot 1 nc (col + 1)%nat) k) = (Raised e, g', k') ->
  row next nc (col :: rest) g k = (Some e, g', k').
Proof. intros H. simpl. rewrite H. reflexivity. Qed.

(** What [try ... except StopIteration: pass] makes of the exception
    that ended the [while] loop. *)
Lemma multiplot_handler fuel g nc fs k e g' k' :
  rows next fuel nc fs g k = Some (e, g', k') ->
  multiplot_from_generator next fuel g nc (Some fs) k
  = Some (match e with StopIteration => None | _ => Some e end, g', k').
Proof.
  intros H. unfold multiplot_from_generator. rewrite H.
  destruct e; reflexivity.
Qed.

Lemma multiplot_never_stop_iteration fuel g nc fs k g' k' :
  multiplot_from_generator next fuel g nc fs k
  <> Some (Some StopIteration, g', k').
Proof.
  unfold multiplot_from_generator.
  destruct fs as [fs|]; [|destruct (nc =? 0)%nat; [discriminate|]];
    (destruct (rows _ _ _ _ _ _) as [[[e g1] k1]|]; [|discriminate]);
    destruct e; discriminate.
Qed.

End Multiplot.

(** ** fn_simp_06d with a library that does not fail *)

Section AmplifierRuns.
Import Amplifier.
Context {F A : Type}.
Variables (zero : F) (solve_fn : list F -> F) (plot_fn : F -> A)
          (div_fn : F -> Qc -> F).
Local Abbreviation ok := (succeeding zero solve_fn plot_fn div_fn).
Local Abbreviation fresh_kernel nph0 Dcr0 := (@Kernel ok nph0 Dcr0 []).

Lemma execute_marks (nph0 Dcr0 : F) :
  exists s,
    cell_execute (fresh_kernel nph0 Dcr0) = (None, s)
    /\ marks "nph_j" (log (st_kernel s))
       = iterations 800 [EvSolve; EvAssign "nph_j"]
    /\ files_written (log (st_kernel s)) = [].
Proof. eexists. vm_compute. repeat split. Qed.

Lemma plot_yields_marks (nph0 Dcr0 : F) :
  exists g k',
    cell_plot_yields 9 (fresh_kernel nph0 Dcr0) = Some (None, 8%nat, g, k')
    /\ marks "nph_j" (log k') = iterations 800 [EvSolve; EvAssign "nph_j"]
    /\ files_written (log k') = [].
Proof. eexists. eexists. vm_compute. repeat split. Qed.

End AmplifierRuns.

(** ** fn_simp_06d with any library: termination *)

Section AmplifierAnyLibrary.
Import Amplifier.
Context {lib : Fenics}.

Lemma amplifier_loop_yield remaining ii nph t k a g' k' :
  evolve_loop remaining ii nph t k = (Yielded a, g', k') ->
  g' = AtFinalYield
  \/ exists m nph' t',
       g' = AtYield m nph' t' /\ (ii <= m < ii + remaining)%nat
       /\ (m mod nip = 0)%nat.
Proof.
  revert ii nph t k. induction remaining as [|r IH]; intros ii nph t k H.
  - cbn [evolve_loop] in H. destruct ii as [|last]; [discriminate|].
    destruct (last mod nip =? 0)%nat; [|discriminate].
    injection H as _ <- _. left. reflexivity.
  - cbn [evolve_loop] in H. cbv zeta in H.
    destruct (solve _) as [nph1|e]; [|discriminate].
    destruct (ii mod nip =? 0)%nat eqn:Hmod.
    + injection H as _ <- _. apply Nat.eqb_eq in Hmod. right.
      eexists ii, nph1, _. repeat split; [lia|lia|exact Hmod].
    + apply IH in H as [->|(m & nph' & t' & -> & Hm & Hmod')];
        [left; reflexivity|right].
      eexists m, nph', t'. repeat split; [lia|lia|exact Hmod'].
Qed.

Lemma amplifier_progress_bound g :
  well_formed g -> (progress g <= 900)%nat.
Proof.
  destruct g; unfold well_formed, progress, n_steps; lia.
Qed.

Lemma amplifier_next_yield g k a g' k' :
  well_formed g ->
  evolve_next g k = (Yielded a, g', k') ->
  well_formed g'
  /\ (progress g + 100 <= progress g')%nat.
Proof.
  intros Hwf H. destruct g as [|ii nph t| |]; unfold evolve_next in H.
  - apply amplifier_loop_yield in H
      as [->|(m & nph' & t' & -> & Hm & Hmod)].
    + unfold well_formed, progress. split; [exact I|lia].
    + unfold well_formed, progress, n_steps, nip in *.
      repeat split; lia.
  - destruct Hwf as (Hii & Hlt).
    apply amplifier_loop_yield in H
      as [->|(m & nph' & t' & -> & Hm & Hmod)].
    + pose proof (Nat.div_mod_eq ii 100).
      unfold well_formed, progress, n_steps in *.
      split; [exact I|lia].
    + pose proof (Nat.div_mod_eq ii 100). pose proof (Nat.div_mod_eq m 100).
      unfold well_formed, progress, n_steps, nip in *.
      repeat split; lia.
  - discriminate.
  - discriminate.
Qed.

(** Each turn of [for u in evolve()] moves the generator on, so the
    loop ends. *)
Lemma plot_yields_returns fuel idx g k :
  well_formed g ->
  (900 < 100 * fuel + progress g)%nat ->
  exists r, plot_yields fuel idx g k = Some r.
Proof.
  revert idx g k. induction fuel as [|fuel IH]; intros idx g k Hwf Hfuel.
  - pose proof (amplifier_progress_bound g Hwf). lia.
  - cbn [plot_yields].
    destruct (evolve_next g k) as [[[u|e] g1] k1] eqn:Hnext.
    + apply amplifier_next_yield in Hnext as [Hwf1 Hp1]; [|exact Hwf].
      cbv zeta. destruct (plot u) as [p|e]; [|eauto].
      apply IH; [exact Hwf1|lia].
    + destruct e; eauto.
Qed.

Lemma cell_plot_yields_returns k :
  exists r, cell_plot_yields 10 k = Some r.
Proof.
  unfold cell_plot_yields. cbv zeta.
  apply plot_yields_returns; [exact I|].
  unfold progress. lia.
Qed.

End AmplifierAnyLibrary.

(** ** The cavity notebook with any SRW: a pass leaves the objects
       already in the list alone *)

Section CavityFrame.
Import Objects Cavity.
Context {srw : SRW}.

Lemma deepcopy_fresh r (st : gmap ref Wfr) :
  st !! fst (deepcopy r st) = None /\ st ⊆ snd (deepcopy r st).
Proof.
  assert (Hfresh : st !! fresh (dom st) = None).
  { apply not_elem_of_dom, is_fresh. }
  unfold deepcopy. destruct (st !! r); simpl.
  - split; [exact Hfresh|]. apply insert_subseteq, Hfresh.
  - split; [exact Hfresh|reflexivity].
Qed.

Lemma propagate_in_place_frame r bl (st0 st : gmap ref Wfr) :
  st0 !! r = None -> st0 ⊆ st ->
  st0 ⊆ snd (propagate_in_place r bl st).
Proof.
  intros Hr Hsub. unfold propagate_in_place.
  destruct (st !! r) as [w|]; [|exact Hsub].
  destruct (PropagElecField w bl) as [w'|e]; [|exact Hsub].
  simpl. apply insert_subseteq_r; assumption.
Qed.

(** Copy, propagate, append: the objects of the store keep their
    state, and the list only grows at its end. *)
Lemma copy_propagate_append_frame src name bl k :
  store k ⊆ store (snd (copy_propagate_append src name bl k))
  /\ cavitywfrList k `prefix_of`
       cavitywfrList (snd (copy_propagate_append src name bl k)).
Proof.
  unfold copy_propagate_append.
  destruct (deepcopy_fresh src (store k)) as [Hnew Hsub].
  destruct (deepcopy src (store k)) as [w st]. simpl in Hnew, Hsub.
  pose proof (propagate_in_place_frame w bl (store k) st Hnew Hsub) as Hframe.
  destruct (propagate_in_place w bl st) as [[e|] st']; simpl in *.
  - split; [exact Hframe|reflexivity].
  - split; [exact Hframe|]. apply prefix_app_r. reflexivity.
Qed.

Lemma pass_body_frame i k :
  store k ⊆ store (snd (pass_body i k))
  /\ cavitywfrList k `prefix_of` cavitywfrList (snd (pass_body i k)).
Proof.
  unfold pass_body.
  destruct (last (cavitywfrList k)) as [src|]; [|split; reflexivity].
  pose proof (copy_propagate_append_frame src "propagateRight" propagateRight k)
    as [Hs1 Hl1].
  destruct (copy_propagate_append src _ _ k) as [[[e|] w1] k1];
    simpl in *; [split; assumption|].
  pose proof (copy_propagate_append_frame w1 "propagateDrift" propagateDrift k1)
    as [Hs2 Hl2].
  destruct (copy_propagate_append w1 _ _ k1) as [[[e|] w2] k2];
    simpl in *; [split; etrans; eassumption|].
  pose proof (copy_propagate_append_frame w2 "propagateLeft" propagateLeft k2)
    as [Hs3 Hl3].
  destruct (copy_propagate_append w2 _ _ k2) as [[[e|] w3] k3];
    simpl in *; [split; (etrans; [|eassumption]); etrans; eassumption|].
  pose proof (copy_propagate_append_frame w3 "propagateDrift" propagateDrift k3)
    as [Hs4 Hl4].
  destruct (copy_propagate_append w3 _ _ k3) as [[[e|] w4] k4]; simpl in *;
    split; (etrans; [|eassumption]); (etrans; [|eassumption]);
    etrans; eassumption.
Qed.

End CavityFrame.

(** ** The wavefront notebooks with an SRW that does not fail *)

Section WavefrontRuns.
Import Objects.
Context {W O Img : Type}.
Variables (lens : Qc -> Qc -> O) (drift : Qc -> O) (one_to_one : Qc -> Qc -> O)
          (propag : W -> O -> W) (rms : W -> Qc * Qc) (intensity : W -> Img).
Local Abbreviation ok_srw :=
  (succeeding_srw lens drift one_to_one propag rms intensity).

Lemma cavity_run (gsn : W) :
  exists k,
    @Cavity.cell_cavity ok_srw gsn = (None, k)
    /\ Cavity.cavitywfrList k = seq 0 17
    /\ Cavity.wavefront_at 0 k = Some gsn
    /\ solver_trace (Cavity.log k)
       = iterations 4 [EvPropagElecField "propagateRight";
                       EvPropagElecField "propagateDrift";
                       EvPropagElecField "propagateLeft";
                       EvPropagElecField "propagateDrift"]
    /\ length (Cavity.cell_rms k) = 17%nat
    /\ files_written (Cavity.log k) = []
    /\ Forall (fun j =>
                 Cavity.wavefront_at (S j) k
                 = (w ← Cavity.wavefront_at j k;
                    bl ← Cavity.pass_optics (srw := ok_srw) !! (j mod 4)%nat;
                    Some (propag w bl)))
              (seq 0 16).
Proof.
  eexists. split; [vm_compute; reflexivity|].
  vm_compute. do 5 (split; [reflexivity|]). repeat constructor.
Qed.


End WavefrontRuns.

(** ** laser_amp_test_01: the denominators, over the reals *)

Section PhotonDensity.
Import LaserAmp.
Local Open Scope R_scope.

Lemma t_data_values : t_data = (fun i => time_0 + INR i * dt) <$> range num_points.
Proof. reflexivity. Qed.

Lemma z_data_values : z_data = (fun i => INR i * dz) <$> range num_points.
Proof. reflexivity. Qed.

Lemma item_fmap_range (f : nat -> R) (n j : nat) :
  (j < n)%nat -> item (f <$> range n) j = f j.
Proof.
  intros Hj. unfold item, range.
  rewrite list_lookup_fmap, lookup_seq_lt by exact Hj. reflexivity.
Qed.

Lemma n_data_values : n_data = (fun j => n_ph_0 / denominator j) <$> range num_points.
Proof. reflexivity. Qed.

Lemma nine : INR (num_points - 1) = 9.
Proof. unfold num_points. simpl. lra. Qed.

Lemma delay_positive (j : nat) :
  (j < num_points)%nat -> 0 < item t_data 1 - item z_data j / c.
Proof.
  intros Hj. rewrite t_data_values, z_data_values.
  rewrite !item_fmap_range by (unfold num_points in *; lia).
  assert (Hle : INR j <= 9).
  { rewrite <- nine. apply le_INR. unfold num_points in *. lia. }
  pose proof (pos_INR j) as H0.
  unfold dt, dz. rewrite nine.
  unfold time_0, time_f, tau_pulse, length_ts, c. simpl INR.
  lra.
Qed.

Lemma exponent_negative (j : nat) :
  (j < num_points)%nat -> exponent j < 0.
Proof.
  intros Hj. pose proof (delay_positive j Hj) as Hlo.
  unfold exponent.
  set (d := item t_data 1 - item z_data j / c) in *.
  unfold gamma_ts, gamma_ts_1, gamma_ts_2, sigma_ts, eta_pulse, n_ph_0,
    n_ph_ts, tau_pulse, c.
  lra.
Qed.

(** C10.  In laser_amp_test_01 the division that defines [n_data[j]]
    is safe for every [j] in 0..9: [t_data[1] - z_data[j]/c] is
    strictly positive, so the denominator
    [1 - exp(-gamma_ts*sigma_ts*eta_pulse*(t_data[1] - z_data[j]/c)/tau_pulse)]
    is strictly positive and not zero (over the reals). *)
Theorem n_data_division_safe (j : nat) :
  (j < num_points)%nat ->
  0 < item t_data 1 - item z_data j / c
  /\ 0 < denominator j
  /\ denominator j <> 0
  /\ n_data !! j = Some (n_ph_0 / denominator j).
Proof.
  intros Hj. pose proof (exponent_negative j Hj) as Hneg.
  pose proof (exp_increasing _ _ Hneg) as H1. rewrite exp_0 in H1.
  assert (Hd : denominator j = 1 - exp (exponent j)) by reflexivity.
  split; [exact (delay_positive j Hj)|].
  split; [lra|]. split; [lra|].
  rewrite n_data_values. unfold range.
  rewrite list_lookup_fmap, lookup_seq_lt by exact Hj. reflexivity.
Qed.

(** The last point of the crystal, where the delay is smallest. *)
Lemma n_data_division_safe_witness :
  (9 < num_points)%nat /\ 0 < denominator 9.
Proof.
  assert (H : (9 < num_points)%nat) by (unfold num_points; lia).
  split; [exact H|].
  exact (proj1 (proj2 (n_data_division_safe 9 H))).
Defined.

End PhotonDensity.

(** ** The loops of the closed-form notebooks *)

Lemma for_each_invariant {S : Type} (P : S -> Prop) (body : nat -> S -> S)
    (indices : list nat) (s : S) :
  (forall i s, P s -> P (body i s)) -> P s -> P (for_each body indices s).
Proof.
  intros Hbody. unfold for_each. revert s.
  induction indices as [|i rest IH]; intros s Hs; simpl.
  - exact Hs.
  - apply IH, Hbody, Hs.
Qed.

Lemma cell_profile_length (p : FN1D.params) :
  length (FN1D.cell_profile p) = 100%nat.
Proof.
  unfold FN1D.cell_profile.
  apply (for_each_invariant (fun a => length a = 100%nat)).
  - intros i a Ha. unfold FN1D.profile_body. rewrite length_insert. exact Ha.
  - reflexivity.
Qed.

(** ** A generator that never stops *)

Section Endless.
Import Heat.
Context {lib : Fenics}.

Lemma row_endless nc cols (k : kernel) :
  exists k', row endless_next nc cols tt k = (None, tt, k').
Proof.
  revert k. induction cols as [|col rest IH]; intros k; simpl.
  - eauto.
  - apply IH.
Qed.

Lemma rows_endless fuel nc figsize (k : kernel) :
  rows endless_next fuel nc figsize tt k = None.
Proof.
  revert k. induction fuel as [|fuel IH]; intros k; simpl.
  - reflexivity.
  - destruct (row_endless nc (range nc)
                (emit (EvFigure (fst figsize) (snd figsize)) k)) as [k' ->].
    apply IH.
Qed.

End Endless.

(** ** The claims on the structure of the notebooks *)

(** C1, counterexample.  The first pass of the cavity loop calls the
    SRW propagator four times, not once. *)
Lemma cavity_pass_calls_propagator_four_times :
  solver_calls
    (Cavity.log (snd (Cavity.pass_body 0 tracing_cavity_kernel)))
  = 4%nat
  /\ 4%nat <> 1%nat.
Proof. split; [vm_compute; reflexivity|discriminate]. Qed.

(** C3, counterexample.  In the heat notebook the [while True] loop of
    [multiplot_from_generator] is left by the [StopIteration] that
    [next(g)] raises, and the cell still ends without an exception: the
    handler has caught it. *)
Lemma multiplot_catches_stop_iteration :
  exists k1,
    Heat.rows Heat.evolve_next 2 5 (Heat.default_figsize 5) Heat.NotStarted
      counting_heat_kernel
    = Some (StopIteration, Heat.Finished, k1)
    /\ Heat.cell_multiplot 2 counting_heat_kernel
       = Some (None, Heat.Finished, k1).
Proof. eexists. vm_compute. split; reflexivity. Qed.


(** C5, counterexample.  The [while True] loop of
    [multiplot_from_generator] has no bound of its own: on a generator
    that never stops, no amount of fuel lets it return. *)
Lemma multiplot_unbounded :
  ~ exists fuel r,
      Heat.multiplot_from_generator endless_next fuel tt 5 None
        counting_heat_kernel
      = Some r.
Proof.
  intros (fuel & r & H). unfold Heat.multiplot_from_generator in H.
  simpl Nat.eqb in H. cbv iota in H.
  rewrite rows_endless in H. discriminate.
Qed.

Section Claims.
Context {F A W O Img : Type}.
Variables (zero : F) (solve_fn : list F -> F) (plot_fn : F -> A)
          (div_fn : F -> Qc -> F).
Variables (lens : Qc -> Qc -> O) (drift : Qc -> O) (one_to_one : Qc -> Qc -> O)
          (propag : W -> O -> W) (rms : W -> Qc * Qc) (intensity : W -> Img).
Local Abbreviation ok := (succeeding zero solve_fn plot_fn div_fn).
Local Abbreviation ok_srw :=
  (succeeding_srw lens drift one_to_one propag rms intensity).

(** C1, amended.  When no library call fails, each iteration of the
    time-stepping loops of the two FEniCS notebooks calls [solve]
    exactly once (50 iterations in the heat notebook, 800 in the
    amplifier notebook, in the plain loops and in the [evolve]
    generators alike), and each of the 4 passes of the cavity loop calls
    [srwl.PropagElecField] four times: right, drift, left, drift. *)
Theorem solver_calls_per_iteration (u0 nph0 Dcr0 : F) (gsn : W) :
  (exists g k,
     Heat.cell_multiplot 2 (Heat.Kernel (lib := ok) u0 []) = Some (None, g, k)
     /\ marks "u_n" (Heat.log k) = iterations 50 [EvSolve; EvAssign "u_n"])
  /\ (exists s,
       Heat.cell_savefig (Heat.Kernel (lib := ok) u0 []) = (None, s)
       /\ marks "u_n" (Heat.log (Heat.st_kernel s))
          = iterations 50 [EvSolve; EvAssign "u_n"])
  /\ (exists s,
       Amplifier.cell_execute (Amplifier.Kernel (lib := ok) nph0 Dcr0 [])
       = (None, s)
       /\ marks "nph_j" (Amplifier.log (Amplifier.st_kernel s))
          = iterations 800 [EvSolve; EvAssign "nph_j"])
  /\ (exists idx g k,
       Amplifier.cell_plot_yields 9 (Amplifier.Kernel (lib := ok) nph0 Dcr0 [])
       = Some (None, idx, g, k)
       /\ marks "nph_j" (Amplifier.log k)
          = iterations 800 [EvSolve; EvAssign "nph_j"])
  /\ (exists k,
       Cavity.cell_cavity (srw := ok_srw) gsn = (None, k)
       /\ solver_trace (Cavity.log k)
          = iterations 4 [EvPropagElecField "propagateRight";
                          EvPropagElecField "propagateDrift";
                          EvPropagElecField "propagateLeft";
                          EvPropagElecField "propagateDrift"]).
Proof.
  split.
  { destruct (multiplot_marks zero solve_fn plot_fn div_fn u0)
      as (g & k & H1 & H2). eauto. }
  split.
  { destruct (savefig_marks zero solve_fn plot_fn div_fn u0) as (s & H1 & H2).
    eauto. }
  split.
  { destruct (execute_marks zero solve_fn plot_fn div_fn nph0 Dcr0)
      as (s & H1 & H2 & _). eauto. }
  split.
  { destruct (plot_yields_marks zero solve_fn plot_fn div_fn nph0 Dcr0)
      as (g & k & H1 & H2 & _). eauto 6. }
  destruct (cavity_run lens drift one_to_one propag rms intensity gsn)
    as (k & H1 & _ & _ & H2 & _). exists k. split; assumption.
Qed.


(** C6.  In the heat notebook [evolve] yields a plot exactly at the
    steps n of 0..49 with n mod 10 = 0: five plots over the 50 time
    steps, the first at step 0. *)
Theorem evolve_plots_every_tenth_step (u0 : F) :
  exists ys k,
    drain Heat.evolve_next 6 Heat.NotStarted (Heat.Kernel (lib := ok) u0 [])
    = Some (ys, StopIteration, k)
    /\ heat_yield_steps ys = [0; 10; 20; 30; 40]%nat
    /\ (forall n : nat,
          n ∈ heat_yield_steps ys
          <-> (n < Heat.num_steps)%nat /\ (n mod 10 = 0)%nat)
    /\ length ys = 5%nat
    /\ head (heat_yield_steps ys) = Some 0%nat
    /\ length (filter (fun e => is_plot e = true) (Heat.log k)) = 5%nat.
Proof.
  destruct (drain_evolve zero solve_fn plot_fn div_fn u0)
    as (ys & k & Hdrain & Hsteps & Hlen & Hplots).
  exists ys, k. split; [exact Hdrain|]. split; [exact Hsteps|].
  split.
  { intros n. rewrite Hsteps. unfold Heat.num_steps. split.
    - rewrite !elem_of_cons, elem_of_nil.
      intros [->|[->|[->|[->|[->|[]]]]]]; split; (lia || reflexivity).
    - intros [Hlt Hmod]. pose proof (Nat.div_mod_eq n 10) as Hn.
      rewrite Hmod, Nat.add_0_r in Hn.
      assert (Hq : (n / 10 < 5)%nat) by lia.
      rewrite Hn. clear Hn Hmod Hlt.
      destruct (n / 10)%nat as [|[|[|[|[|q]]]]]; [..|lia].
      all: rewrite !elem_of_cons; auto 10. }
  split; [exact Hlen|]. split; [rewrite Hsteps; reflexivity|exact Hplots].
Qed.

(** C8.  After the propagation loop has run with [npass] = 4,
    [cavitywfrList] holds 1 + 4*[npass] = 17 wavefronts, all distinct
    objects; each is the propagation of a copy of the one before it,
    and the first is still the initial wavefront.  With any SRW, no
    pass changes an object that is already in the store or an element
    that is already in the list. *)
Theorem cavity_list_grows_by_copies (gsn : W) :
  (exists k,
     Cavity.cell_cavity (srw := ok_srw) gsn = (None, k)
     /\ length (Cavity.cavitywfrList k) = (1 + 4 * Cavity.npass)%nat
     /\ length (Cavity.cavitywfrList k) = 17%nat
     /\ NoDup (Cavity.cavitywfrList k)
     /\ Cavity.cavitywfrList k !! 0%nat = Some Cavity.wfrCenter0
     /\ Cavity.wavefront_at 0 k = Some gsn
     /\ Forall (fun j =>
                  Cavity.wavefront_at (S j) k
                  = (w ← Cavity.wavefront_at j k;
                     bl ← Cavity.pass_optics (srw := ok_srw) !! (j mod 4)%nat;
                     Some (propag w bl)))
               (seq 0 16))
  /\ (forall (srw : SRW) (i : nat) (k : Cavity.kernel),
        Cavity.store k ⊆ Cavity.store (snd (Cavity.pass_body i k))
        /\ Cavity.cavitywfrList k
             `prefix_of` Cavity.cavitywfrList (snd (Cavity.pass_body i k))).
Proof.
  split; [|intros srw i k; apply pass_body_frame].
  destruct (cavity_run lens drift one_to_one propag rms intensity gsn)
    as (k & Hrun & Hlist & Hfirst & _ & _ & _ & Hchain).
  exists k. rewrite Hlist.
  split; [exact Hrun|]. do 2 (split; [reflexivity|]).
  split; [apply NoDup_seq|]. split; [reflexivity|].
  split; [exact Hfirst|exact Hchain].
Qed.

End Claims.

Section ClaimsAnyLibrary.
Context {lib : Fenics}.

(** C3, amended.  The notebooks have no recovery and no retry, and one
    exception handler: [multiplot_from_generator] of the heat notebook
    catches the [StopIteration] that ends its [while True] loop and
    returns normally.  Any other exception that leaves the loop
    propagates out of the call unchanged, in the state in which it was
    raised; the loop over the columns stops at the first exception; and
    a failure of the FEniCS solver inside [evolve] ends the cell with
    that exception after a single call of the solver. *)
Theorem only_stop_iteration_is_caught {G A : Type}
    (next : G -> Heat.kernel -> signal A * G * Heat.kernel) :
  (forall fuel g nc fs k e g' k',
      Heat.rows next fuel nc fs g k = Some (e, g', k') ->
      Heat.multiplot_from_generator next fuel g nc (Some fs) k
      = Some (match e with StopIteration => None | _ => Some e end, g', k'))
  /\ (forall fuel g nc fs k g' k',
        Heat.multiplot_from_generator next fuel g nc fs k
        <> Some (Some StopIteration, g', k'))
  /\ (forall nc col rest g k e g' k',
        next g (Heat.emit (EvSubplot 1 nc (col + 1)%nat) k) = (Raised e, g', k') ->
        Heat.row next nc (col :: rest) g k = (Some e, g', k'))
  /\ (exists k',
        Heat.cell_multiplot 2 failing_heat_kernel
        = Some (Some (LibraryError 1), Heat.Finished, k')
        /\ solver_calls (Heat.log k') = 1%nat).
Proof.
  split; [intros *; apply multiplot_handler|].
  split; [intros *; apply multiplot_never_stop_iteration|].
  split; [intros *; apply row_raises|].
  eexists. vm_compute. split; reflexivity.
Qed.

(** C5, amended.  Every loop of the notebooks ends.  The [for] loops
    over a range have constant bounds: 50 steps in the heat notebook,
    800 in the amplifier notebook, 4 passes in the cavity notebook, 10
    and 100 points in the plotting loops.  The two loops driven by a
    generator, [while True] in [multiplot_from_generator] and
    [for u in evolve()], have no bound of their own: whatever the
    library does, they end because [evolve()] is exhausted after its
    bounded loop or because a call raises. *)
Theorem every_loop_ends (k_heat : Heat.kernel) (k_amp : Amplifier.kernel)
    (p : FN1D.params) :
  (exists r, Heat.cell_multiplot 2 k_heat = Some r)
  /\ (exists r, Amplifier.cell_plot_yields 10 k_amp = Some r)
  /\ length (range Heat.num_steps) = 50%nat
  /\ length (range Amplifier.n_steps) = 800%nat
  /\ length (range Cavity.npass) = 4%nat
  /\ length LaserAmp.t_data = 10%nat
  /\ length LaserAmp.z_data = 10%nat
  /\ length LaserAmp.n_data = 10%nat
  /\ length (FN1D.cell_profile p) = 100%nat.
Proof.
  split.
  { destruct (cell_multiplot_returns k_heat) as (r & g & k & H).
    rewrite H. eauto. }
  split; [apply cell_plot_yields_returns|].
  do 6 (split; [reflexivity|]). apply cell_profile_length.
Qed.

End ClaimsAnyLibrary.

(** * Further properties of the notebooks *)

(** ** Loops and logs *)

Lemma for_in_invariant {S : Type} (P : S -> Prop)
    (body : nat -> S -> option exn * S) (indices : list nat) (s : S) :
  (forall n s, P s -> P (snd (body n s))) -> P s ->
  P (snd (for_in body indices s)).
Proof.
  intros Hbody. revert s. induction indices as [|n rest IH]; intros s Hs.
  - exact Hs.
  - cbn [for_in]. specialize (Hbody n s Hs).
    destruct (body n s) as [[e|] s']; [exact Hbody|apply IH, Hbody].
Qed.


Lemma solver_calls_app l1 l2 :
  solver_calls (l1 ++ l2) = (solver_calls l1 + solver_calls l2)%nat.
Proof. unfold solver_calls. rewrite filter_app, length_app. reflexivity. Qed.

Lemma solver_calls_copy_propagate name :
  solver_calls [EvDeepcopy; EvPropagElecField name] = 1%nat.
Proof. reflexivity. Qed.

Lemma count_events_app f l1 l2 :
  count_events f (l1 ++ l2) = (count_events f l1 + count_events f l2)%nat.
Proof. unfold count_events. rewrite filter_app, length_app. reflexivity. Qed.

Lemma omap_total {A B : Type} (f : A -> option B) (l : list A) :
  (forall x, x ∈ l -> is_Some (f x)) ->
  length (omap f l) = length l
  /\ forall j, omap f l !! j = l !! j ≫= f.
Proof.
  induction l as [|a l IH]; intros Hall.
  - split; [reflexivity|]. intros j. reflexivity.
  - destruct (Hall a) as [b Hb]; [left|].
    destruct IH as [Hlen Hlook]; [intros x Hx; apply Hall; right; exact Hx|].
    cbn [omap list_omap]. rewrite Hb. cbn [length]. split; [lia|].
    intros [|j]; cbn; [rewrite Hb; reflexivity|apply Hlook].
Qed.

(** ** [multiplot_from_generator] on any finite sequence *)

Section MultiplotOnLists.
Import Heat.
Context {lib : Fenics} {A : Type}.

Lemma count_subplot_events nc cols :
  count_events is_subplot (subplot_events nc cols) = length cols
  /\ count_events is_figure (subplot_events nc cols) = 0%nat.
Proof.
  induction cols as [|col rest [IH1 IH2]]; [split; reflexivity|].
  change (subplot_events nc (col :: rest))
    with ([EvSubplot 1 nc (col + 1)%nat] ++ subplot_events nc rest).
  rewrite !count_events_app, IH1, IH2. split; reflexivity.
Qed.

Lemma row_list_enough nc cols (l : list A) k :
  (length cols <= length l)%nat ->
  row list_next nc cols l k
  = (None, drop (length cols) l,
     Kernel (u_n k) (log k ++ subplot_events nc cols)).
Proof.
  revert l k. induction cols as [|col rest IH]; intros l k Hlen.
  - simpl. rewrite app_nil_r. destruct k; reflexivity.
  - destruct l as [|a l]; [simpl in Hlen; lia|].
    cbn [row list_next]. rewrite IH by (simpl in Hlen; lia).
    simpl. rewrite <- app_assoc. reflexivity.
Qed.

Lemma row_list_short nc cols (l : list A) k :
  (length l < length cols)%nat ->
  row list_next nc cols l k
  = (Some StopIteration, [],
     Kernel (u_n k) (log k ++ subplot_events nc (take (S (length l)) cols))).
Proof.
  revert l k. induction cols as [|col rest IH]; intros l k Hlen.
  - simpl in Hlen. lia.
  - destruct l as [|a l].
    + reflexivity.
    + cbn [row list_next]. rewrite IH by (simpl in Hlen; lia).
      simpl. rewrite <- app_assoc. reflexivity.
Qed.

Lemma added_trans k k1 k2 f1 s1 f2 s2 :
  added k k1 f1 s1 -> added k1 k2 f2 s2 -> added k k2 (f1 + f2) (s1 + s2).
Proof.
  intros (Hu1 & Hl1 & Hf1 & Hs1) (Hu2 & Hl2 & Hf2 & Hs2).
  unfold added. rewrite Hu2, Hl2, Hf2, Hs2, Hu1, Hl1, Hf1, Hs1.
  repeat split; lia.
Qed.

(** A figure followed by the subplots of [cols]. *)
Lemma added_figure_row k c fs cols :
  added k (Kernel (u_n (emit (EvFigure fs.1 fs.2) k))
             (log (emit (EvFigure fs.1 fs.2) k) ++ subplot_events c cols))
        1 (length cols).
Proof.
  destruct (count_subplot_events c cols) as [H1 H2].
  unfold added, emit. cbn [u_n log].
  rewrite !count_events_app, !length_app, H1, H2.
  unfold subplot_events. rewrite length_fmap.
  change (count_events is_figure [EvFigure fs.1 fs.2]) with 1%nat.
  change (count_events is_subplot [EvFigure fs.1 fs.2]) with 0%nat.
  simpl length. repeat split; lia.
Qed.

Lemma rows_list c fs q (l : list A) r k :
  (length l = q * c + r)%nat -> (r < c)%nat ->
  exists k',
    rows list_next (S q) c fs l k = Some (StopIteration, [], k')
    /\ added k k' (S q) (length l + 1).
Proof.
  assert (Hc : length (range c) = c) by (unfold range; apply length_seq).
  revert l k. induction q as [|q IH]; intros l k Hlen Hr.
  - cbn [rows]. rewrite row_list_short by (rewrite Hc; lia).
    eexists. split; [reflexivity|].
    pose proof (added_figure_row k c fs (take (S (length l)) (range c))) as H.
    rewrite length_take, Hc in H.
    replace (S (length l) `min` c)%nat with (length l + 1)%nat in H by lia.
    exact H.
  - cbn [rows]. rewrite Nat.mul_succ_l in Hlen.
    rewrite row_list_enough by (rewrite Hc; lia). rewrite Hc.
    pose proof (added_figure_row k c fs (range c)) as H1. rewrite Hc in H1.
    destruct (IH (drop c l)
                (Kernel (u_n (emit (EvFigure fs.1 fs.2) k))
                   (log (emit (EvFigure fs.1 fs.2) k)
                    ++ subplot_events c (range c))))
      as (k' & Hrows & H2).
    { rewrite length_drop. lia. }
    { exact Hr. }
    exists k'. split; [exact Hrows|].
    pose proof (added_trans _ _ _ _ _ _ _ H1 H2) as H.
    rewrite length_drop in H.
    replace (1 + S q)%nat with (S (S q)) in H by lia.
    replace (c + (length l - c + 1))%nat with (length l + 1)%nat in H by lia.
    exact H.
Qed.

(** [multiplot_from_generator] on a finite sequence of [length l]
    items and [c > 0] columns returns normally with the sequence used
    up.  It has opened [length l / c + 1] figures and [length l + 1]
    subplots: the subplot is made before [next(g)] is called, so the
    call that finds the sequence exhausted leaves one empty subplot, and
    a sequence that fills its last row leaves a figure with nothing but
    that subplot.  Nothing else is logged and [u_n] is not touched. *)
Theorem multiplot_on_a_finite_sequence (l : list A) (c : nat) fs k :
  (0 < c)%nat ->
  exists k',
    multiplot_from_generator list_next (length l / c + 1) l c fs k
    = Some (None, [], k')
    /\ added k k' (length l / c + 1) (length l + 1).
Proof.
  intros Hc.
  assert (Hfs : exists fs', (match fs with
            | Some fs => Ok fs
            | None => if (c =? 0)%nat then Raise ZeroDivisionError
                      else Ok (default_figsize c) end) = Ok fs').
  { destruct fs; [eauto|]. destruct (Nat.eqb_spec c 0); [lia|eauto]. }
  destruct Hfs as [fs' Hfs].
  destruct (rows_list c fs' (length l / c) l (length l mod c) k)
    as (k' & Hrows & Hadded).
  { pose proof (Nat.div_mod_eq (length l) c). lia. }
  { apply Nat.mod_upper_bound. lia. }
  exists k'. unfold multiplot_from_generator. rewrite Hfs.
  rewrite (Nat.add_1_r (length l / c)), Hrows. split; [reflexivity|].
  exact Hadded.
Qed.

(** With [num_columns = 0]: the default figure size divides by zero
    before anything is plotted, and with a figure size given the loop
    opens figures with no subplot and never calls [next(g)], so it does
    not return. *)
Theorem multiplot_without_columns {G : Type}
    (next : G -> kernel -> signal A * G * kernel) (g : G) (k : kernel) :
  (forall fuel, multiplot_from_generator next fuel g 0 None k
                = Some (Some ZeroDivisionError, g, k))
  /\ (forall fuel fs, multiplot_from_generator next fuel g 0 (Some fs) k = None).
Proof.
  split; [reflexivity|].
  intros fuel fs. unfold multiplot_from_generator.
  assert (H : forall fuel k, rows next fuel 0 fs g k = None).
  { clear. induction fuel as [|fuel IH]; intros k; [reflexivity|]. apply IH. }
  rewrite H. reflexivity.
Qed.

End MultiplotOnLists.

Lemma multiplot_on_a_finite_sequence_witness :
  exists k',
    Heat.multiplot_from_generator list_next 2 [1; 2; 3]%nat 2 None
      counting_heat_kernel = Some (None, [], k')
    /\ added counting_heat_kernel k' 2 4.
Proof.
  apply (multiplot_on_a_finite_sequence (lib := counting_fenics)
           [1; 2; 3]%nat 2 None counting_heat_kernel).
  lia.
Defined.

(** ** The heat notebook with any library *)

Section HeatFurther.
Import Heat.
Context {lib : Fenics}.

Lemma evolve_loop_yield_state remaining n nip u t k a g' k' :
  evolve_loop remaining n nip u t k = (Yielded a, g', k') ->
  exists m u' t',
    g' = AtYield m nip u' t' /\ solve [u_n k'] = Ok u' /\ plot u' = Ok a.
Proof.
  revert n u t k. induction remaining as [|r IH]; intros n u t k H;
    cbn [evolve_loop] in H; cbv zeta in H.
  - discriminate.
  - destruct (solve [u_n (emit EvSolve k)]) as [u1|e] eqn:Hsolve; [|discriminate].
    destruct (n mod nip =? 0)%nat.
    + destruct (plot u1) as [p|e] eqn:Hplot; [|discriminate].
      injection H as <- <- <-. eexists n, u1, _. repeat split; assumption.
    + apply IH in H. exact H.
Qed.

(** Whatever the library does, when [evolve()] of the heat notebook
    yields, the artist it yields is the plot of the solution [u] it
    has just solved for, and [u_n] is still the previous solution:
    [u_n.assign(u)] runs only when the generator is resumed. *)
Theorem evolve_plots_the_new_solution g k a g' k' :
  evolve_next g k = (Yielded a, g', k') ->
  exists n nip u t,
    g' = AtYield n nip u t /\ solve [u_n k'] = Ok u /\ plot u = Ok a.
Proof.
  intros H. destruct g as [|n nip u t|]; unfold evolve_next in H.
  - apply evolve_loop_yield_state in H as (m & u' & t' & H). eauto.
  - apply evolve_loop_yield_state in H as (m & u' & t' & H). eauto.
  - discriminate.
Qed.




End HeatFurther.

Lemma evolve_plots_the_new_solution_witness :
  exists n nip u t,
    (Heat.evolve_next Heat.NotStarted counting_heat_kernel).1.2
    = Heat.AtYield n nip u t
    /\ solve [Heat.u_n (Heat.evolve_next Heat.NotStarted counting_heat_kernel).2]
       = Ok u
    /\ plot u = Ok 1%nat.
Proof.
  apply (evolve_plots_the_new_solution (lib := counting_fenics)
           Heat.NotStarted counting_heat_kernel 1%nat).
  vm_compute. reflexivity.
Defined.

Section HeatCompose.
Import Heat.
Context {F A : Type}.
Variables (zero : F) (solve_fn : list F -> F) (plot_fn : F -> A)
          (div_fn : F -> Qc -> F).
Local Abbreviation ok := (succeeding zero solve_fn plot_fn div_fn).

(** The two time-stepping cells of the heat notebook share [u_n]: when
    no call fails, the plotting cell leaves in [u_n] the solution after
    50 steps, and the saving cell goes on from there, so that it ends
    with the solution after 100 steps from the initial [u_n]. *)
Theorem time_stepping_cells_compose (u0 : F) :
  exists g k1 s,
    cell_multiplot 2 (Kernel (lib := ok) u0 []) = Some (None, g, k1)
    /\ u_n k1 = Nat.iter 50 (fun u => solve_fn [u]) u0
    /\ cell_savefig k1 = (None, s)
    /\ u_n (st_kernel s) = Nat.iter 100 (fun u => solve_fn [u]) u0
    /\ st_u s = u_n (st_kernel s)
    /\ solver_calls (log (st_kernel s)) = 100%nat.
Proof.
  eexists. eexists. eexists.
  split; [vm_compute; reflexivity|].
  split; [vm_compute; reflexivity|].
  split; [vm_compute; reflexivity|].
  vm_compute. repeat split.
Qed.
End HeatCompose.

(** ** The amplifier notebook *)

Section Profiles.
Import AmplifierInit.
Local Open Scope R_scope.



(** Both initial profiles are 0 wherever [on_L] or [on_R] holds, for
    any [near] that accepts only points within [eps <= 2*ds] of its
    target: the initial state satisfies the Dirichlet conditions. *)
Theorem initial_profiles_vanish_on_the_boundary
    (near : R -> R -> bool) (eps : R) (x : R) (on_boundary : bool) :
  (forall y y0, near y y0 = true -> Rabs (y - y0) <= eps) ->
  eps <= 2 * ds ->
  on_L near x on_boundary = true \/ on_R near x on_boundary = true ->
  nph_init x = 0 /\ Dcr_init x = 0.
Proof.
  assert (Hds : ds = 1 / 226) by (unfold ds, Ld, mesh_d; reflexivity).
  intros Hnear Heps H.
  assert (Hx : Rabs x <= eps \/ Rabs (x - 1) <= eps).
  { destruct H as [H|H]; [left|right];
      apply andb_prop in H as [_ H]; apply Hnear in H.
    - replace x with (x - 0) by lra. exact H.
    - exact H. }
  assert (Hx' : x <= 2 * ds \/ 1 - 2 * ds <= x).
  { destruct Hx as [Hx|Hx]; [left|right]; revert Hx;
      unfold Rabs; destruct (Rcase_abs _); lra. }
  unfold nph_init, Dcr_init, half_wave.
  split.
  - destruct (Rlt_dec _ _) as [Hin|]; [|reflexivity]. exfalso.
    apply Rabs_def2 in Hin. unfold p_x0, p_hw, p_w in Hin. lra.
  - destruct (Rlt_dec _ _) as [Hin|]; [|reflexivity]. exfalso.
    apply Rabs_def2 in Hin. unfold c_x0, c_hw, c_w in Hin. lra.
Qed.

Lemma initial_profiles_vanish_on_the_boundary_witness :
  nph_init 0 = 0 /\ Dcr_init 0 = 0.
Proof.
  apply (initial_profiles_vanish_on_the_boundary
           (fun y y0 => if Rle_dec (Rabs (y - y0)) 3e-16 then true else false)
           3e-16 0 true).
  - intros y y0. destruct (Rle_dec _ _); [intros _; assumption|discriminate].
  - unfold ds, Ld, mesh_d. lra.
  - left. unfold on_L. simpl. destruct (Rle_dec _ _) as [|Hn]; [reflexivity|].
    exfalso. apply Hn. replace (0 - 0) with 0 by lra. rewrite Rabs_R0. lra.
Defined.
End Profiles.

Section AmplifierFurther.
Import Amplifier.
Context {lib : Fenics}.

(** The cell "Execute simulation" never changes the inversion,
    whatever the library does: [solve] is called for [nph] only, so
    [Dcr] keeps the value copied from [Dcr_j] and [Dcr_j.assign(Dcr)]
    writes that value back. *)
Theorem inversion_never_changes (k : kernel) :
  st_Dcr (snd (cell_execute k)) = Dcr_j k
  /\ Dcr_j (st_kernel (snd (cell_execute k))) = Dcr_j k.
Proof.
  set (P := fun s : stepping => st_Dcr s = Dcr_j k /\ Dcr_j (st_kernel s) = Dcr_j k).
  change (P (snd (cell_execute k))).
  unfold cell_execute. cbv zeta.
  match goal with |- context [for_in step_body ?l ?s0] =>
    assert (H : P (snd (for_in step_body l s0))) end.
  { apply for_in_invariant.
    - intros n s [H1 H2]. unfold step_body. cbv zeta.
      destruct (solve _) as [nph|e]; [|split; assumption].
      destruct (n mod nip =? 0)%nat; [destruct (plot _)|]; split; cbn; assumption.
    - split; reflexivity. }
  destruct (for_in step_body _ _) as [[e|] s]; [exact H|].
  destruct H as [H1 H2]. cbn [snd] in H1, H2.
  destruct (plot _); split; cbn; assumption.
Qed.
Lemma amplifier_loop_no_final_yield remaining ii nph t k a g' k' :
  (remaining + ii = n_steps)%nat ->
  evolve_loop remaining ii nph t k = (Yielded a, g', k') ->
  exists m t', g' = AtYield m a t' /\ (ii <= m < n_steps)%nat
               /\ (m mod nip = 0)%nat
               /\ solve [nph_j k'; Dcr_j k'] = Ok a.
Proof.
  revert ii nph t k. induction remaining as [|r IH]; intros ii nph t k Hsum H.
  - cbn [evolve_loop] in H. cbn in Hsum. subst ii.
    change n_steps with (S 799) in H. cbv iota beta in H.
    change (799 mod nip =? 0)%nat with false in H. cbv iota in H. discriminate.
  - cbn [evolve_loop] in H. cbv zeta in H.
    destruct (solve [nph_j (emit EvSolve k); Dcr_j (emit EvSolve k)])
      as [nph1|e] eqn:Hsolve; [|discriminate].
    destruct (ii mod nip =? 0)%nat eqn:Hmod.
    + injection H as <- <- <-. apply Nat.eqb_eq in Hmod.
      eexists ii, _. repeat split; [lia|lia|exact Hmod|exact Hsolve].
    + apply IH in H as (m & t' & -> & Hm & Hmod' & Hs); [|lia].
      eexists m, t'. repeat split; [lia|lia|exact Hmod'|exact Hs].
Qed.

Lemma amplifier_next_reachable g k a g' k' :
  reachable g ->
  evolve_next g k = (Yielded a, g', k') ->
  reachable g'
  /\ exists ii t, g' = AtYield ii a t /\ (ii mod nip = 0)%nat
                  /\ (ii < n_steps)%nat
                  /\ solve [nph_j k'; Dcr_j k'] = Ok a.
Proof.
  intros Hr H. destruct g as [|ii nph t| |]; unfold evolve_next in H.
  - apply amplifier_loop_no_final_yield in H as (m & t' & -> & Hm & Hmod & Hs);
      [|reflexivity].
    split; [split; [exact Hmod|lia]|]. eexists m, t'. repeat split; [exact Hmod|lia|exact Hs].
  - destruct Hr as [_ Hlt].
    apply amplifier_loop_no_final_yield in H as (m & t' & -> & Hm & Hmod & Hs);
      [|lia].
    split; [split; [exact Hmod|lia]|]. eexists m, t'. repeat split; [exact Hmod|lia|exact Hs].
  - discriminate.
  - discriminate.
Qed.

Lemma reachable_progress g : reachable g -> well_formed g /\ (progress g <= 800)%nat.
Proof.
  destruct g as [|ii nph t| |]; unfold reachable, well_formed, progress;
    [split; [exact I|lia]| |contradiction|split; [exact I|lia]].
  intros [Hmod Hlt]. unfold nip, n_steps in *.
  pose proof (Nat.div_mod_eq ii 100). repeat split; lia.
Qed.

Lemma amplifier_loop_log remaining ii nph t k s g' k' ev :
  evolve_loop remaining ii nph t k = (s, g', k') ->
  ev ∈ log k' -> ev ∈ log k \/ ev = EvSolve \/ ev = EvAssign "nph_j".
Proof.
  revert ii nph t k. induction remaining as [|r IH]; intros ii nph t k H Hev.
  - cbn [evolve_loop] in H. destruct ii as [|last].
    + injection H as _ _ <-. left. exact Hev.
    + destruct (last mod nip =? 0)%nat; injection H as _ _ <-; left; exact Hev.
  - cbn [evolve_loop] in H. cbv zeta in H.
    assert (Hsolve : forall k0, ev ∈ log (emit EvSolve k0) ->
              ev ∈ log k0 \/ ev = EvSolve \/ ev = EvAssign "nph_j").
    { intros k0 Hin. cbn [emit log] in Hin. apply elem_of_app in Hin as [Hin|Hin];
        [left; exact Hin|]. apply list_elem_of_singleton in Hin. auto. }
    destruct (solve [nph_j (emit EvSolve k); Dcr_j (emit EvSolve k)])
      as [nph1|e].
    + destruct (ii mod nip =? 0)%nat.
      * injection H as _ _ <-. apply Hsolve, Hev.
      * apply IH in H; [|exact Hev]. destruct H as [Hin|H]; [|auto].
        cbn [assign_nph_j log] in Hin. apply elem_of_app in Hin as [Hin|Hin];
          [apply Hsolve, Hin|]. apply list_elem_of_singleton in Hin. auto.
    + injection H as _ _ <-. apply Hsolve, Hev.
Qed.

Lemma amplifier_next_log g k s g' k' ev :
  evolve_next g k = (s, g', k') ->
  ev ∈ log k' -> ev ∈ log k \/ ev = EvSolve \/ ev = EvAssign "nph_j".
Proof.
  intros H Hev. destruct g as [|ii nph t| |]; unfold evolve_next in H.
  - eapply amplifier_loop_log; eassumption.
  - eapply amplifier_loop_log in H; [|exact Hev]. destruct H as [Hin|H]; [|auto].
    cbn [assign_nph_j log] in Hin. apply elem_of_app in Hin as [Hin|Hin];
      [auto|]. apply list_elem_of_singleton in Hin. auto.
  - injection H as _ _ <-. auto.
  - injection H as _ _ <-. auto.
Qed.

Lemma plot_yields_index fuel idx g k e idx' g' k' :
  reachable g ->
  plot_yields fuel idx g k = Some (e, idx', g', k') ->
  (idx <= idx')%nat /\ (100 * idx' + progress g <= 100 * idx + 800)%nat
  /\ forall r c i, EvSubplot r c i ∈ log k' ->
       EvSubplot r c i ∈ log k
       \/ (r = n_rows /\ c = n_cols /\ (idx < i <= idx')%nat).
Proof.
  revert idx g k. induction fuel as [|fuel IH]; intros idx g k Hr H.
  - discriminate.
  - cbn [plot_yields] in H.
    destruct (reachable_progress g Hr) as [Hwf Hp].
    destruct (evolve_next g k) as [[[u|x] g1] k1] eqn:Hnext.
    + pose proof Hnext as Hnext'. pose proof Hnext as Hlog.
      apply amplifier_next_reachable in Hnext as [Hr1 _]; [|exact Hr].
      apply amplifier_next_yield in Hnext' as [_ Hp1]; [|exact Hwf].
      destruct (reachable_progress g1 Hr1) as [_ Hp1'].
      assert (Hnew : forall r c i,
                EvSubplot r c i ∈ log (emit EvPlot
                                         (emit (EvSubplot n_rows n_cols (idx + 1)) k1)) ->
                EvSubplot r c i ∈ log k
                \/ (r = n_rows /\ c = n_cols /\ i = (idx + 1)%nat)).
      { intros r c i Hin. cbn [emit log] in Hin.
        apply elem_of_app in Hin as [Hin|Hin].
        - apply elem_of_app in Hin as [Hin|Hin].
          + eapply amplifier_next_log in Hin; [|exact Hlog].
            destruct Hin as [Hin|[Hin|Hin]]; [left; exact Hin|discriminate..].
          + apply list_elem_of_singleton in Hin. injection Hin as -> -> ->. auto.
        - apply list_elem_of_singleton in Hin. discriminate. }
      cbv zeta in H. destruct (plot u) as [p|x].
      * apply IH in H as (Hle & Hprog & Hall); [|exact Hr1].
        split; [lia|]. split; [lia|]. intros r c i Hin.
        apply Hall in Hin as [Hin|(-> & -> & Hi)]; [|right; repeat split; lia].
        apply Hnew in Hin as [Hin|(-> & -> & ->)]; [auto|].
        right. repeat split; lia.
      * injection H as _ <- _ <-. split; [lia|]. split; [lia|].
        intros r c i Hin. apply Hnew in Hin as [Hin|(-> & -> & ->)]; [auto|].
        right. repeat split; lia.
    + assert (Hk : forall r c i, EvSubplot r c i ∈ log k1 -> EvSubplot r c i ∈ log k).
      { intros r c i Hin. eapply amplifier_next_log in Hin; [|exact Hnext].
        destruct Hin as [Hin|[Hin|Hin]]; [exact Hin|discriminate..]. }
      destruct x; injection H as _ <- _ <-; (split; [lia|]); (split; [lia|]);
        intros r c i Hin; left; apply Hk, Hin.
Qed.

Lemma drain_amplifier fuel g k :
  reachable g ->
  (800 < 100 * fuel + progress g)%nat ->
  exists ys e k',
    drain evolve_next fuel g k = Some (ys, e, k')
    /\ Forall (fun y => exists ii t, y.2 = AtYield ii y.1 t
                                    /\ (ii mod nip = 0)%nat
                                    /\ (ii < n_steps)%nat) ys
    /\ (100 * length ys + progress g <= 800)%nat.
Proof.
  revert g k. induction fuel as [|fuel IH]; intros g k Hr Hfuel.
  - destruct (reachable_progress g Hr) as [_ Hp]. lia.
  - destruct (reachable_progress g Hr) as [Hwf Hp]. cbn [drain].
    destruct (evolve_next g k) as [[[a|x] g1] k1] eqn:Hnext.
    + pose proof Hnext as Hnext'.
      apply amplifier_next_reachable in Hnext
        as [Hr1 (ii & t & Hg1 & Hmod & Hlt & _)]; [|exact Hr].
      apply amplifier_next_yield in Hnext' as [_ Hp1]; [|exact Hwf].
      destruct (IH g1 k1 Hr1) as (ys & e & k' & -> & Hall & Hlen); [lia|].
      eexists _, e, k'. split; [reflexivity|]. split.
      * constructor; [|exact Hall]. exists ii, t. auto.
      * cbn [length]. lia.
    + eexists [], x, k1. split; [reflexivity|]. split; [constructor|].
      cbn [length]. lia.
Qed.

(** Whatever the library does, [evolve()] of the amplifier notebook
    yields at most 8 times and is exhausted within 9 calls of [next];
    each yield is the one inside the loop, at a step [ii < 800] that is
    a multiple of [nip], with the solution just computed.  The yield
    after the loop is never reached: the loop ends with [ii = 799]. *)
Theorem final_yield_is_never_reached (k : kernel) :
  exists ys e k',
    drain evolve_next 9 NotStarted k = Some (ys, e, k')
    /\ (length ys <= 8)%nat
    /\ Forall (fun y => exists ii t, y.2 = AtYield ii y.1 t
                                    /\ (ii mod nip = 0)%nat
                                    /\ (ii < n_steps)%nat) ys.
Proof.
  destruct (drain_amplifier 9 NotStarted k) as (ys & e & k' & Hrun & Hall & Hlen).
  - exact I.
  - unfold progress. lia.
  - exists ys, e, k'. split; [exact Hrun|]. split; [|exact Hall].
    unfold progress in Hlen. lia.
Qed.

(** Whatever the library does, the cell that plots what [evolve()]
    yields calls [plt.subplot] with the grid of the notebook, 3 rows by
    5 columns, and with an index between 1 and its final [idx], which
    is at most 8: the index never leaves the grid. *)
Theorem subplots_stay_on_the_grid (k : kernel) :
  exists e idx g k',
    cell_plot_yields 10 k = Some (e, idx, g, k')
    /\ (idx <= 8)%nat
    /\ forall r c i, EvSubplot r c i ∈ log k' ->
         EvSubplot r c i ∈ log k
         \/ (r = n_rows /\ c = n_cols /\ (1 <= i <= idx)%nat
             /\ (i <= n_rows * n_cols)%nat).
Proof.
  destruct (cell_plot_yields_returns k) as [[[[e idx] g] k'] Hrun].
  exists e, idx, g, k'. split; [exact Hrun|].
  unfold cell_plot_yields in Hrun. cbv zeta in Hrun.
  apply plot_yields_index in Hrun as (_ & Hidx & Hall); [|exact I].
  unfold progress in Hidx. split; [lia|].
  intros r c i Hin. apply Hall in Hin as [Hin|(-> & -> & Hi)].
  - cbn [emit log] in Hin.
    apply elem_of_app in Hin as [Hin|Hin];
      [|apply list_elem_of_singleton in Hin; discriminate].
    apply elem_of_app in Hin as [Hin|Hin];
      [|apply list_elem_of_singleton in Hin; discriminate].
    left. exact Hin.
  - right. unfold n_rows, n_cols. repeat split; lia.
Qed.
End AmplifierFurther.

Section AmplifierCompose.
Import Amplifier.
Context {F A : Type}.
Variables (zero : F) (solve_fn : list F -> F) (plot_fn : F -> A)
          (div_fn : F -> Qc -> F).
Local Abbreviation ok := (succeeding zero solve_fn plot_fn div_fn).

(** When no call fails, [evolve()] of the amplifier notebook yields 8
    times, at the steps 0, 100, ..., 700, each time the solution just
    computed, and then stops: the solution after the last step is left
    in [nph_j] by 800 solves but is never yielded. *)
Theorem amplifier_yields (nph0 Dcr0 : F) :
  let step := fun nph => solve_fn [nph; Dcr0] in
  exists ys k',
    drain evolve_next 10 NotStarted (Kernel (lib := ok) nph0 Dcr0 [])
      = Some (ys, StopIteration, k')
    /\ fst <$> ys
       = (fun ii => Nat.iter (S ii) step nph0) <$> [0; 100; 200; 300; 400; 500; 600; 700]%nat
    /\ nph_j k' = Nat.iter 800 step nph0
    /\ Dcr_j k' = Dcr0.
Proof.
  intros step. eexists. eexists.
  split; [vm_compute; reflexivity|].
  vm_compute. repeat split.
Qed.
(** The cells of the amplifier notebook share [nph_j]: when no call
    fails, the loop cell leaves the solution after 800 steps there and
    the cell that plots [evolve()] goes on from it, ending after 1600
    solves with 8 subplots. *)
Theorem amplifier_cells_compose (nph0 Dcr0 : F) :
  let step := fun nph => solve_fn [nph; Dcr0] in
  exists s idx g k',
    cell_execute (Kernel (lib := ok) nph0 Dcr0 []) = (None, s)
    /\ nph_j (st_kernel s) = Nat.iter 800 step nph0
    /\ cell_plot_yields 10 (st_kernel s) = Some (None, idx, g, k')
    /\ idx = 8%nat
    /\ nph_j k' = Nat.iter 1600 step nph0
    /\ Dcr_j k' = Dcr0
    /\ solver_calls (log k') = 1600%nat.
Proof.
  intros step. eexists. eexists. eexists. eexists.
  split; [vm_compute; reflexivity|].
  split; [vm_compute; reflexivity|].
  split; [vm_compute; reflexivity|].
  vm_compute. repeat split.
Qed.
End AmplifierCompose.

(** ** The cavity notebook *)

Section CavityAnySRW.
Import Objects Cavity.
Context {srw : SRW}.




End CavityAnySRW.

Section CavityPasses.
Import Objects.
Context {W O Img : Type}.
Variables (lens : Qc -> Qc -> O) (drift : Qc -> O) (one_to_one : Qc -> Qc -> O)
          (propag : W -> O -> W) (rms : W -> Qc * Qc) (intensity : W -> Img).
Local Abbreviation ok_srw :=
  (succeeding_srw lens drift one_to_one propag rms intensity).
Local Abbreviation kernel := (@Cavity.kernel ok_srw).
Local Abbreviation wavefront_at := (@Cavity.wavefront_at ok_srw).
Local Abbreviation cavitywfrList := (@Cavity.cavitywfrList ok_srw).
Local Abbreviation store := (@Cavity.store ok_srw).
Local Abbreviation log := (@Cavity.log ok_srw).

Lemma wavefront_at_old j r w v (k : kernel) lg :
  (j < length (cavitywfrList k))%nat ->
  (forall r, r ∈ cavitywfrList k -> is_Some (store k !! r)) ->
  store k !! w = None ->
  wavefront_at j (Cavity.Kernel (srw := ok_srw)
                    (<[w := v]> (<[w := r]> (store k))) (cavitywfrList k ++ [w]) lg)
  = wavefront_at j k.
Proof.
  intros Hj Hin Hw. unfold Cavity.wavefront_at. cbn [Cavity.cavitywfrList Cavity.store].
  rewrite lookup_app_l by exact Hj.
  destruct (cavitywfrList k !! j) as [r0|] eqn:Hr0; [|reflexivity].
  cbn. assert (r0 <> w).
  { intros ->. apply list_elem_of_lookup_2, Hin in Hr0 as [? Hr0]. congruence. }
  rewrite !lookup_insert_ne by congruence. reflexivity.
Qed.

Lemma copy_propagate_append_grows w0 m src name bl (k : kernel) :
  grown w0 m k ->
  last (cavitywfrList k) = Some src ->
  Cavity.pass_optics (srw := ok_srw) !! (m mod 4)%nat = Some bl ->
  exists w k',
    Cavity.copy_propagate_append (srw := ok_srw) src name bl k = (None, w, k')
    /\ grown w0 (S m) k'
    /\ last (cavitywfrList k') = Some w
    /\ solver_calls (log k') = S (solver_calls (log k)).
Proof.
  intros (Hlen & Hnodup & Hin & H0 & Hchain) Hlast Hbl.
  assert (Hsrc : cavitywfrList k !! m = Some src).
  { rewrite last_lookup, Hlen in Hlast. exact Hlast. }
  destruct (Hin src) as [v Hv]; [apply list_elem_of_lookup_2 in Hsrc; exact Hsrc|].
  assert (Hfresh : store k !! fresh (dom (store k)) = None).
  { apply not_elem_of_dom, is_fresh. }
  unfold Cavity.copy_propagate_append, deepcopy. rewrite Hv.
  unfold propagate_in_place. rewrite lookup_insert_eq. cbn [PropagElecField succeeding_srw].
  set (w := fresh (dom (store k))) in *.
  eexists w, _. split; [reflexivity|].
  assert (Hnotin : w ∉ cavitywfrList k).
  { intros Hw. apply Hin in Hw as [? Hw]. congruence. }
  split; [|split].
  - split; [|split; [|split; [|split]]].
    + cbn [Cavity.cavitywfrList]. rewrite length_app, Hlen. cbn. lia.
    + cbn [Cavity.cavitywfrList]. apply NoDup_app. split; [exact Hnodup|].
      split; [|apply NoDup_singleton].
      intros r Hr Hr'. apply list_elem_of_singleton in Hr'. subst r. contradiction.
    + cbn [Cavity.cavitywfrList Cavity.store]. intros r Hr.
      apply elem_of_app in Hr as [Hr|Hr].
      * destruct (decide (r = w)) as [->|Hne]; [contradiction|].
        rewrite !lookup_insert_ne by congruence. apply Hin, Hr.
      * apply list_elem_of_singleton in Hr. subst r. rewrite lookup_insert_eq. eauto.
    + rewrite wavefront_at_old; [exact H0|lia|exact Hin|exact Hfresh].
    + intros j Hj. unfold chained.
      destruct (decide (j = m)) as [->|Hne].
      * rewrite (wavefront_at_old m) by (lia || assumption).
        unfold Cavity.wavefront_at at 1. cbn [Cavity.cavitywfrList Cavity.store].
        rewrite lookup_app_r by lia. rewrite Hlen, Nat.sub_diag.
        cbn [lookup list_lookup mbind option_bind].
        rewrite lookup_insert_eq.
        unfold Cavity.wavefront_at. rewrite Hsrc. cbn [mbind option_bind].
        rewrite Hv. cbn [mbind option_bind].
        symmetry.
        exact (f_equal (fun o : option O => o ≫= (fun bl0 => Some (propag v bl0))) Hbl).
      * rewrite !wavefront_at_old by (lia || assumption).
        apply Hchain. lia.
  - cbn [Cavity.cavitywfrList]. apply last_snoc.
  - cbn [Cavity.log]. rewrite solver_calls_app, solver_calls_copy_propagate. lia.
Qed.

Lemma pass_optics_lookup m c bl :
  (m mod 4 = 0)%nat -> (c < 4)%nat ->
  Cavity.pass_optics (srw := ok_srw) !! c = Some bl ->
  Cavity.pass_optics (srw := ok_srw) !! ((c + m) mod 4)%nat = Some bl.
Proof.
  intros Hm Hc Hbl.
  replace ((c + m) mod 4)%nat with c; [exact Hbl|].
  pose proof (Nat.div_mod_eq m 4). pose proof (Nat.div_mod_eq (c + m) 4).
  pose proof (Nat.mod_upper_bound (c + m) 4). lia.
Qed.

Lemma pass_body_grows w0 m i (k : kernel) :
  grown w0 m k -> (m mod 4 = 0)%nat ->
  exists k',
    Cavity.pass_body (srw := ok_srw) i k = (None, k')
    /\ grown w0 (4 + m) k'
    /\ solver_calls (log k') = (4 + solver_calls (log k))%nat.
Proof.
  intros Hg Hm. unfold Cavity.pass_body.
  destruct (last (cavitywfrList k)) as [src|] eqn:Hlast.
  2:{ apply last_None in Hlast. destruct Hg as [Hlen _].
      rewrite Hlast in Hlen. discriminate. }
  destruct (copy_propagate_append_grows w0 m src "propagateRight"
              Cavity.propagateRight k Hg Hlast) as (w1 & k1 & -> & Hg1 & Hl1 & Hc1).
  { apply (pass_optics_lookup m 0); [exact Hm|lia|reflexivity]. }
  destruct (copy_propagate_append_grows w0 (1 + m) w1 "propagateDrift"
              Cavity.propagateDrift k1 Hg1 Hl1) as (w2 & k2 & -> & Hg2 & Hl2 & Hc2).
  { apply (pass_optics_lookup m 1); [exact Hm|lia|reflexivity]. }
  destruct (copy_propagate_append_grows w0 (2 + m) w2 "propagateLeft"
              Cavity.propagateLeft k2 Hg2 Hl2) as (w3 & k3 & -> & Hg3 & Hl3 & Hc3).
  { apply (pass_optics_lookup m 2); [exact Hm|lia|reflexivity]. }
  destruct (copy_propagate_append_grows w0 (3 + m) w3 "propagateDrift"
              Cavity.propagateDrift k3 Hg3 Hl3) as (w4 & k4 & -> & Hg4 & Hl4 & Hc4).
  { apply (pass_optics_lookup m 3); [exact Hm|lia|reflexivity]. }
  exists k4. split; [reflexivity|]. split; [exact Hg4|lia].
Qed.

Lemma passes_grow w0 indices m (k : kernel) :
  grown w0 m k -> (m mod 4 = 0)%nat ->
  exists k',
    for_in (Cavity.pass_body (srw := ok_srw)) indices k = (None, k')
    /\ grown w0 (4 * length indices + m) k'
    /\ solver_calls (log k') = (4 * length indices + solver_calls (log k))%nat.
Proof.
  revert m k. induction indices as [|i rest IH]; intros m k Hg Hm.
  - exists k. split; [reflexivity|]. split; [exact Hg|reflexivity].
  - cbn [for_in length].
    destruct (pass_body_grows w0 m i k Hg Hm) as (k1 & -> & Hg1 & Hc1).
    destruct (IH (4 + m)%nat k1 Hg1) as (k2 & Hrun & Hg2 & Hc2).
    { pose proof (Nat.div_mod_eq m 4). pose proof (Nat.div_mod_eq (4 + m) 4).
      pose proof (Nat.mod_upper_bound (4 + m) 4). lia. }
    exists k2. split; [exact Hrun|].
    split; [|lia].
    replace (4 * S (length rest) + m)%nat with (4 * length rest + (4 + m))%nat by lia.
    exact Hg2.
Qed.

Lemma grown_wavefront_at w0 m (k : kernel) j :
  grown w0 m k -> (j <= m)%nat -> is_Some (wavefront_at j k).
Proof.
  intros (Hlen & _ & Hin & _) Hj. unfold Cavity.wavefront_at.
  destruct (lookup_lt_is_Some_2 (cavitywfrList k) j) as [r Hr]; [lia|].
  rewrite Hr. cbn [mbind option_bind]. apply Hin.
  apply list_elem_of_lookup_2 in Hr. exact Hr.
Qed.

(** For every SRW whose calls succeed, any number of passes and any
    store that holds the first wavefront, the cell that prints the rms
    sizes prints one pair for each wavefront of the list, in the order
    of the list. *)
Theorem rms_of_every_wavefront (passes : nat) (k : kernel) (w0 : W) :
  store k !! Cavity.wfrCenter0 = Some w0 ->
  exists k',
    Cavity.cell_propagate (srw := ok_srw) passes k = (None, k')
    /\ length (Cavity.cell_rms k') = (1 + 4 * passes)%nat
    /\ forall j, (j <= 4 * passes)%nat ->
         Cavity.cell_rms k' !! j = rms <$> wavefront_at j k'.
Proof.
  intros Hw0. unfold Cavity.cell_propagate.
  destruct (passes_grow w0 (range passes) 0
              (Cavity.Kernel (srw := ok_srw) (store k) [Cavity.wfrCenter0] (log k)))
    as (k' & Hrun & Hg & _).
  - split; [reflexivity|]. split; [apply NoDup_singleton|].
    split; [|split].
    + intros r Hr. apply list_elem_of_singleton in Hr. subst r.
      exists w0. exact Hw0.
    + unfold Cavity.wavefront_at. cbn. exact Hw0.
    + intros j Hj. lia.
  - reflexivity.
  - unfold range in Hg. rewrite length_seq, Nat.add_0_r in Hg.
    exists k'. split; [exact Hrun|].
    pose proof Hg as (Hlen & _).
    unfold Cavity.cell_rms.
    match goal with |- context [omap ?f ?l] =>
      destruct (omap_total f l) as [Hl Hlook] end.
    { intros j Hj. unfold range in Hj. apply elem_of_seq in Hj.
      destruct (grown_wavefront_at w0 _ k' j Hg) as [w Hw]; [lia|].
      rewrite Hw. eauto. }
    split.
    + rewrite Hl. unfold range. rewrite length_seq, Hlen. lia.
    + intros j Hj. rewrite Hlook. unfold range.
      rewrite lookup_seq_lt by lia. reflexivity.
Qed.

(** For every SRW whose calls succeed, any number of passes and any
    store that holds the first wavefront [wfrCenter0], the cavity cell
    returns with [1 + 4*passes] distinct wavefronts in its list.  The
    first still has the state it had before the cell, each of the others
    holds the one before it propagated through the optics of its
    position in the pass (right, drift, left, drift), and
    [PropagElecField] has been called [4*passes] times. *)
Theorem cavity_any_number_of_passes (passes : nat) (k : kernel) (w0 : W) :
  store k !! Cavity.wfrCenter0 = Some w0 ->
  exists k',
    Cavity.cell_propagate (srw := ok_srw) passes k = (None, k')
    /\ length (cavitywfrList k') = (1 + 4 * passes)%nat
    /\ NoDup (cavitywfrList k')
    /\ wavefront_at 0 k' = Some w0
    /\ (forall j, (j < 4 * passes)%nat ->
        wavefront_at (S j) k'
        = (w ← wavefront_at j k';
           bl ← Cavity.pass_optics (srw := ok_srw) !! (j mod 4)%nat;
           Some (propag w bl)))
    /\ solver_calls (log k') = (solver_calls (log k) + 4 * passes)%nat.
Proof.
  intros Hw0. unfold Cavity.cell_propagate.
  destruct (passes_grow w0 (range passes) 0
              (Cavity.Kernel (srw := ok_srw) (store k) [Cavity.wfrCenter0] (log k)))
    as (k' & Hrun & (Hlen & Hnodup & _ & H0 & Hchain) & Hcalls).
  - split; [reflexivity|]. split; [apply NoDup_singleton|].
    split; [|split].
    + intros r Hr. apply list_elem_of_singleton in Hr. subst r.
      exists w0. exact Hw0.
    + unfold Cavity.wavefront_at. cbn. exact Hw0.
    + intros j Hj. lia.
  - reflexivity.
  - unfold range in *. rewrite length_seq, Nat.add_0_r in *.
    cbn [Cavity.log] in Hcalls.
    exists k'. split; [exact Hrun|]. split; [rewrite Hlen; lia|].
    split; [exact Hnodup|]. split; [exact H0|]. split; [exact Hchain|lia].
Qed.
End CavityPasses.

Lemma cavity_any_number_of_passes_witness :
  exists k',
    Cavity.cell_propagate 2 tracing_cavity_kernel = (None, k')
    /\ length (Cavity.cavitywfrList k') = 9%nat.
Proof.
  destruct (cavity_any_number_of_passes
              (fun _ _ => "lens") (fun _ => "drift") (fun _ _ => "1to1")
              (fun w bl => w ++ [bl]) (fun _ => (Q2Qc 0, Q2Qc 0))
              (fun w => length w) 2 tracing_cavity_kernel [])
    as (k' & Hrun & Hlen & _).
  - vm_compute. reflexivity.
  - exists k'. split; [exact Hrun|exact Hlen].
Defined.

Lemma rms_of_every_wavefront_witness :
  exists k',
    Cavity.cell_propagate 2 tracing_cavity_kernel = (None, k')
    /\ length (Cavity.cell_rms k') = 9%nat.
Proof.
  destruct (rms_of_every_wavefront
              (fun _ _ => "lens") (fun _ => "drift") (fun _ _ => "1to1")
              (fun w bl => w ++ [bl]) (fun _ => (Q2Qc 0, Q2Qc 0))
              (fun w => length w) 2 tracing_cavity_kernel [])
    as (k' & Hrun & Hlen & _).
  - vm_compute. reflexivity.
  - exists k'. split; [exact Hrun|exact Hlen].
Defined.

(** ** The wavefront notebook *)

Section WavefrontFurther.
Import Objects Wavefront.
Context {srw : SRW}.

End WavefrontFurther.

(** ** fn1d_02 *)

Section GainFurther.
Import FN1D.
Local Open Scope R_scope.



Ltac lookup_ns :=
  repeat first [ rewrite lookup_insert_eq
               | rewrite lookup_insert_ne by discriminate ].

(** Whatever the kernel held before, the cell of initial conditions
    followed by the gain cell raises nothing, prints the values of the
    notebook's parameters, and ends in the saturated branch:
    [delta_ts = 0], [g_e = g_e_max] and [n_ph = g_e_max * n_ph_0]. *)
Theorem gain_cell_after_initial_conditions (ns : gmap string R) :
  exists ns',
    cell_gain (cell_initial ns)
    = (None, printed_early notebook ++ printed_late notebook, ns')
    /\ ns' !! "delta_ts" = Some 0
    /\ ns' !! "g_e" = Some (g_e_max notebook)
    /\ ns' !! "n_ph" = Some (g_e_max notebook * 1e11).
Proof.
  assert (Hgain : gain notebook = (g_e_max notebook, 0)).
  { apply gain_saturated, notebook_saturated. }
  unfold cell_gain, cell_gain_with, cell_initial. cbv zeta.
  lookup_ns. fold notebook.
  eexists. split; [reflexivity|].
  lookup_ns. unfold n_ph, delta_ts, g_e. rewrite Hgain. cbn [fst snd].
  repeat split.
Qed.




End GainFurther.

(** ** laser_amp_test_01 *)

Section PhotonDensityFurther.
Import LaserAmp.
Local Open Scope R_scope.

(** In laser_amp_test_01 the photon density [n_data] exceeds the
    incident density [n_ph_0] at every point and grows strictly along
    the crystal. *)
Theorem photon_density_grows (i j : nat) :
  (i < j < num_points)%nat ->
  n_ph_0 < item n_data i /\ item n_data i < item n_data j.
Proof.
  intros [Hij Hj].
  assert (Hi : (i < num_points)%nat) by lia.
  pose proof (exponent_negative i Hi) as Hni.
  pose proof (exponent_negative j Hj) as Hnj.
  rewrite n_data_values, !item_fmap_range by lia.
  assert (Hexp : exponent i < exponent j).
  { unfold exponent. rewrite t_data_values, z_data_values.
    rewrite !item_fmap_range by (unfold num_points in *; lia).
    apply lt_INR in Hij. pose proof (pos_INR i).
    unfold dt, dz. rewrite nine.
    unfold gamma_ts, gamma_ts_1, gamma_ts_2, sigma_ts, eta_pulse, n_ph_0,
      n_ph_ts, time_0, time_f, tau_pulse, length_ts, c. simpl (INR 1).
    lra. }
  pose proof (exp_increasing _ _ Hexp) as H1.
  pose proof (exp_increasing _ _ Hnj) as H2. rewrite exp_0 in H2.
  pose proof (exp_pos (exponent i)) as H3.
  unfold denominator.
  set (ei := exp (exponent i)) in *. set (ej := exp (exponent j)) in *.
  assert (Hn : 0 < n_ph_0) by (unfold n_ph_0, n_ph_ts; lra).
  split.
  - rewrite <- (Rdiv_1_r n_ph_0) at 1. unfold Rdiv.
    apply Rmult_lt_compat_l; [exact Hn|].
    apply Rinv_lt_contravar; lra.
  - unfold Rdiv. apply Rmult_lt_compat_l; [exact Hn|].
    apply Rinv_lt_contravar; [apply Rmult_lt_0_compat; lra|lra].
Qed.

Lemma photon_density_grows_witness :
  n_ph_0 < item n_data 0 /\ item n_data 0 < item n_data 9.
Proof. apply (photon_density_grows 0 9). unfold num_points. lia. Defined.

End PhotonDensityFurther.
